(** * go-morfeusz: the Go binding of the Morfeusz 2 morphological analyser

    The repository is a thin binding in two layers:

    - [morfeusz-cgo.cc] / [morfeusz-cgo.h]: an [extern "C"] shim over the
      C++ library [libmorfeusz2] (classes [Morfeusz], [ResultsIterator],
      [IdResolver]), turning exceptions into wire structs;
    - [morfeusz.go]: the Go package, turning wire structs into Go values.

    The C++ library itself is not part of the repository.  It is kept
    abstract: an interface ([morfeusz.Library]) whose methods either return
    or throw.  Whatever a statement needs to know about the library is a
    named contract, assumed explicitly, and every contract is inhabited by
    the small library [Toy] at the end of the definitions. *)

From Stdlib Require Import ZArith List String Ascii Bool Lia.
Import ListNotations.
Open Scope string_scope.
Open Scope Z_scope.

(** ** Machine integers

    C [int] is 32 bits wide; Go [int] is 64 bits wide on the platforms the
    binding is built for.  Integers are kept as [Z]; every narrowing
    conversion is written out. *)

Definition int_min : Z := - 2 ^ 31.
Definition int_max : Z := 2 ^ 31 - 1.

(** Truncation to a signed 32-bit integer: Go's [C.int(x)] for a Go [int]
    [x], and C++'s conversion of a [size_t] to [int]. *)
Definition wrap_int (z : Z) : Z := (z + 2 ^ 31) mod 2 ^ 32 - 2 ^ 31.

Definition in_int (z : Z) : Prop := int_min <= z <= int_max.

(** Go's [int(x)] for a C [int] [x] widens and keeps the value. *)
Definition go_int (z : Z) : Z := z.

(** A container size ([size_t]) stored into an [int]. *)
Definition size_to_int (k : nat) : Z := wrap_int (Z.of_nat k).

(** ** C strings *)

Definition NUL : ascii := "000"%char.

(** [strlen]: the number of characters before the first NUL. *)
Fixpoint strlen (s : string) : nat :=
  match s with
  | EmptyString => 0
  | String c rest => if Ascii.eqb c NUL then 0 else S (strlen rest)
  end.

(** [std::exception]: all the shim ever looks at is [what()]. *)
Record exception : Type := { what : string }.

(** The result of calling a [const] method that may throw. *)
Inductive Fallible (A : Type) : Type :=
| Returns (a : A)
| Throws (e : exception).
Arguments Returns {A} a.
Arguments Throws {A} e.

(** The result of calling a mutating method that may throw: the object is
    left in some state either way. *)
Inductive Effect (S : Type) : Type :=
| Done (s : S)
| Raised (e : exception) (s : S).
Arguments Done {S} s.
Arguments Raised {S} e s.

(** ** The C++ library, namespace [morfeusz] *)

Module morfeusz.

Inductive Charset := UTF8 | ISO8859_2 | CP1250 | CP852.
Inductive TokenNumbering := SEPARATE_NUMBERING | CONTINUOUS_NUMBERING.
Inductive CaseHandling :=
  CONDITIONALLY_CASE_SENSITIVE | STRICTLY_CASE_SENSITIVE | IGNORE_CASE.
Inductive WhitespaceHandling :=
  SKIP_WHITESPACES | APPEND_WHITESPACES | KEEP_WHITESPACES.
Inductive MorfeuszUsage :=
  BOTH_ANALYSE_AND_GENERATE | ANALYSE_ONLY | GENERATE_ONLY.

Definition Charset_eqb (a b : Charset) : bool :=
  match a, b with
  | UTF8, UTF8 | ISO8859_2, ISO8859_2 | CP1250, CP1250 | CP852, CP852 => true
  | _, _ => false
  end.

Definition TokenNumbering_eqb (a b : TokenNumbering) : bool :=
  match a, b with
  | SEPARATE_NUMBERING, SEPARATE_NUMBERING
  | CONTINUOUS_NUMBERING, CONTINUOUS_NUMBERING => true
  | _, _ => false
  end.

Definition CaseHandling_eqb (a b : CaseHandling) : bool :=
  match a, b with
  | CONDITIONALLY_CASE_SENSITIVE, CONDITIONALLY_CASE_SENSITIVE
  | STRICTLY_CASE_SENSITIVE, STRICTLY_CASE_SENSITIVE
  | IGNORE_CASE, IGNORE_CASE => true
  | _, _ => false
  end.

Definition WhitespaceHandling_eqb (a b : WhitespaceHandling) : bool :=
  match a, b with
  | SKIP_WHITESPACES, SKIP_WHITESPACES
  | APPEND_WHITESPACES, APPEND_WHITESPACES
  | KEEP_WHITESPACES, KEEP_WHITESPACES => true
  | _, _ => false
  end.

(** [MorphInterpretation]: one interpretation of one token. *)
Record MorphInterpretation : Type := {
  startNode : Z;
  endNode : Z;
  orth : string;
  lemma : string;
  tagId : Z;
  nameId : Z;
  labelsId : Z;
}.

(** A [Morfeusz] object: the implementation's private state, and the one
    data member the shim reads and writes directly. *)
Record Morfeusz (Impl : Type) : Type := {
  impl : Impl;
  dictionarySearchPaths : list string;
}.
Arguments impl {Impl} _.
Arguments dictionarySearchPaths {Impl} _.

(** The methods of [Morfeusz], [ResultsIterator] and [IdResolver] that
    the shim calls. *)
Class Library : Type := {
  Impl : Type;
  ResultsIterator : Type;

  createInstance : option string -> MorfeuszUsage -> Fallible (Morfeusz Impl);
  clone : Morfeusz Impl -> Morfeusz Impl;

  analyse : Morfeusz Impl -> string -> Fallible ResultsIterator;
  hasNext : ResultsIterator -> bool * ResultsIterator;
  next : ResultsIterator -> Fallible MorphInterpretation * ResultsIterator;

  generate : Morfeusz Impl -> string -> Fallible (list MorphInterpretation);
  generateTag :
    Morfeusz Impl -> string -> Z -> Fallible (list MorphInterpretation);

  getTagsetId : Morfeusz Impl -> string;
  getTag : Morfeusz Impl -> Z -> Fallible string;
  getTagId : Morfeusz Impl -> string -> Fallible Z;
  getName : Morfeusz Impl -> Z -> Fallible string;
  getNameId : Morfeusz Impl -> string -> Fallible Z;
  getLabelsAsString : Morfeusz Impl -> Z -> Fallible string;
  getLabels : Morfeusz Impl -> Z -> Fallible (list string);
  getLabelsId : Morfeusz Impl -> string -> Fallible Z;
  getTagsCount : Morfeusz Impl -> Z;
  getNamesCount : Morfeusz Impl -> Z;
  getLabelsCount : Morfeusz Impl -> Z;

  getDictID : Morfeusz Impl -> string;
  getDictCopyright : Morfeusz Impl -> string;

  setAggl : string -> Morfeusz Impl -> Effect (Morfeusz Impl);
  setPraet : string -> Morfeusz Impl -> Effect (Morfeusz Impl);
  setCharset : Charset -> Morfeusz Impl -> Effect (Morfeusz Impl);
  setCaseHandling : CaseHandling -> Morfeusz Impl -> Effect (Morfeusz Impl);
  setTokenNumbering :
    TokenNumbering -> Morfeusz Impl -> Effect (Morfeusz Impl);
  setWhitespaceHandling :
    WhitespaceHandling -> Morfeusz Impl -> Effect (Morfeusz Impl);
  setDictionary : string -> Morfeusz Impl -> Effect (Morfeusz Impl);

  getAggl : Morfeusz Impl -> string;
  getPraet : Morfeusz Impl -> string;
  getCharset : Morfeusz Impl -> Charset;
  getCaseHandling : Morfeusz Impl -> CaseHandling;
  getTokenNumbering : Morfeusz Impl -> TokenNumbering;
  getWhitespaceHandling : Morfeusz Impl -> WhitespaceHandling;
  getAvailableAgglOptions : Morfeusz Impl -> list string;
  getAvailablePraetOptions : Morfeusz Impl -> list string;
}.

End morfeusz.

(** ** Reads of fixed-size tables

    The shim indexes its translation tables by the raw ordinal it is
    given, without a bounds check.  A read inside the table is [Defined]; a
    read outside it has no defined result, and is kept apart as
    [OutOfBounds] instead of being given one. *)

Inductive Behaviour (A : Type) : Type :=
| Defined (a : A)
| OutOfBounds.
Arguments Defined {A} a.
Arguments OutOfBounds {A}.

Definition bind {A B : Type} (c : Behaviour A) (k : A -> Behaviour B)
  : Behaviour B :=
  match c with
  | Defined a => k a
  | OutOfBounds => OutOfBounds
  end.

Declare Scope behaviour_scope.
Delimit Scope behaviour_scope with behaviour.
Notation "x <- c ;; k" := (bind c (fun x => k))
  (at level 100, c at next level, right associativity) : behaviour_scope.
Notation "' pat <- c ;; k" := (bind c (fun x => match x with pat => k end))
  (at level 100, pat pattern, c at next level, right associativity)
  : behaviour_scope.

(** [table[i]] for a table of [List.length table] entries. *)
Definition index {T : Type} (table : list T) (i : Z) : Behaviour T :=
  if i <? 0 then OutOfBounds
  else match nth_error table (Z.to_nat i) with
       | Some x => Defined x
       | None => OutOfBounds
       end.

(** ** [morfeusz-cgo.h] and [morfeusz-cgo.cc]: the [extern "C"] shim

    Named [C] after the pseudo-package through which the Go code reaches
    it.  A pointer to a character array is [Some] of the array's contents,
    or [None] for [NULL]; releasing memory is not modelled. *)

Module C.

(** [struct String { const char* p; int n; }] *)
Record String : Type := { p : option string; n : Z }.

Definition Error : Type := String.

(** [struct StringArray { const struct String* strings; int length; }];
    its [length] is [strings_length] here, [TokenInfoArray] having a
    [length] of its own. *)
Record StringArray : Type := {
  strings : option (list String);
  strings_length : Z;
}.

Record TokenInfo : Type := {
  orth : String;
  lemma : String;
  startNode : Z;
  endNode : Z;
  tagID : Z;
  nameID : Z;
  labelsID : Z;
}.

Record TokenInfoArray : Type := {
  tokens : option (list TokenInfo);
  length : Z;
  error : Error;
}.

(** The enumerations of the header, by ordinal. *)
Definition UTF8 : Z := 0.
Definition ISO8859_2 : Z := 1.
Definition CP1250 : Z := 2.
Definition CP852 : Z := 3.
Definition SEPARATE_NUMBERING : Z := 0.
Definition CONTINUOUS_NUMBERING : Z := 1.
Definition CONDITIONALLY_CASE_SENSITIVE : Z := 0.
Definition STRICTLY_CASE_SENSITIVE : Z := 1.
Definition IGNORE_CASE : Z := 2.
Definition SKIP_WHITESPACES : Z := 0.
Definition APPEND_WHITESPACES : Z := 1.
Definition KEEP_WHITESPACES : Z := 2.
Definition BOTH_ANALYSE_AND_GENERATE : Z := 0.
Definition ANALYSE_ONLY : Z := 1.
Definition GENERATE_ONLY : Z := 2.

Definition translateCharset : list morfeusz.Charset :=
  [ morfeusz.UTF8; morfeusz.ISO8859_2; morfeusz.CP1250; morfeusz.CP852 ].
Definition translateTokenNumbering : list morfeusz.TokenNumbering :=
  [ morfeusz.SEPARATE_NUMBERING; morfeusz.CONTINUOUS_NUMBERING ].
Definition translateCaseHandling : list morfeusz.CaseHandling :=
  [ morfeusz.CONDITIONALLY_CASE_SENSITIVE; morfeusz.STRICTLY_CASE_SENSITIVE;
    morfeusz.IGNORE_CASE ].
Definition translateWhitespaceHandling : list morfeusz.WhitespaceHandling :=
  [ morfeusz.SKIP_WHITESPACES; morfeusz.APPEND_WHITESPACES;
    morfeusz.KEEP_WHITESPACES ].
Definition translateUsage : list morfeusz.MorfeuszUsage :=
  [ morfeusz.BOTH_ANALYSE_AND_GENERATE; morfeusz.ANALYSE_ONLY;
    morfeusz.GENERATE_ONLY ].

Definition invalidId : Z := -1.
Definition emptyString : String := {| p := None; n := 0 |}.
Definition noError : Error := emptyString.
Definition emptyStringArray : StringArray :=
  {| strings := None; strings_length := 0 |}.
Definition emptyTokenInfo : TokenInfo :=
  {| orth := emptyString; lemma := emptyString; startNode := 0; endNode := 0;
     tagID := 0; nameID := 0; labelsID := 0 |}.

(** [static_cast<R>(i)] to one of the header's enumerations, whose values
    are unsigned 32-bit ordinals. *)
Definition enum_cast (i : Z) : Z := i mod 2 ^ 32.

(** The loop of [reverseTranslate], from position [i] on. *)
Fixpoint reverseTranslate_from {T : Type} (eqb : T -> T -> bool)
    (array : list T) (value : T) (i : Z) : Z :=
  match array with
  | [] => enum_cast invalidId
  | x :: rest =>
      if eqb x value then enum_cast i
      else reverseTranslate_from eqb rest value (i + 1)
  end.

Definition reverseTranslate {T : Type} (eqb : T -> T -> bool)
    (array : list T) (value : T) : Z :=
  reverseTranslate_from eqb array value 0.

(** [makeString(const char* p, int n)]: a fresh array holding the first
    [n] characters. *)
Definition makeString_chars (chars : string) (len : Z) : String :=
  {| p := Some (substring 0 (Z.to_nat len) chars); n := len |}.

(** [makeString(const std::string& s)] *)
Definition makeString (s : string) : String :=
  makeString_chars s (size_to_int (String.length s)).

Definition makeError (e : exception) : Error :=
  makeString_chars (what e) (size_to_int (strlen (what e))).

(** [std::string(s.p, s.n)] *)
Definition stdString (s : String) : string :=
  match p s with
  | Some chars => substring 0 (Z.to_nat (n s)) chars
  | None => EmptyString
  end.

Definition makeTokenInfo (m : morfeusz.MorphInterpretation) : TokenInfo :=
  {| orth := makeString (morfeusz.orth m);
     lemma := makeString (morfeusz.lemma m);
     startNode := morfeusz.startNode m;
     endNode := morfeusz.endNode m;
     tagID := morfeusz.tagId m;
     nameID := morfeusz.nameId m;
     labelsID := morfeusz.labelsId m |}.

Definition makeStringArray (lst : list string) : StringArray :=
  {| strings := Some (map makeString lst);
     strings_length := size_to_int (List.length lst) |}.

Definition makeTokenInfoArray (vec : list morfeusz.MorphInterpretation)
  : TokenInfoArray :=
  {| tokens := Some (map makeTokenInfo vec);
     length := size_to_int (List.length vec);
     error := noError |}.

(** [makeTokenInfoArray(const std::exception& e)] *)
Definition makeTokenInfoArray_exception (e : exception) : TokenInfoArray :=
  {| tokens := None; length := 0; error := makeError e |}.

(** Go's conversion [C.int(x)] of a Go [int]. *)
Definition int (x : Z) : Z := wrap_int x.

Section Shim.

Context {L : morfeusz.Library}.

(** [Morf] and [Res] are [void*] handles; a non-null handle is identified
    with the state of the object it points to, and a call that mutates the
    object returns the object's new state. *)
Definition Morf : Type := morfeusz.Morfeusz morfeusz.Impl.
Definition Res : Type := morfeusz.ResultsIterator.

(** The result is [None] for a [NULL] handle. *)
Definition createInstance (dictName : String) (usage : Z)
  : Behaviour (option Morf) :=
  (morfeuszUsage <- index translateUsage usage ;;
   Defined
     (match
        match p dictName with
        | None => morfeusz.createInstance None morfeuszUsage
        | Some _ =>
            morfeusz.createInstance (Some (stdString dictName)) morfeuszUsage
        end
      with
      | Returns m => Some m
      | Throws _ => None
      end))%behaviour.


Definition hasNext (r : Res) : Z * Res :=
  let (b, r') := morfeusz.hasNext r in
  ((if b then 1 else 0), r').

Definition next (r : Res) : TokenInfo * Res :=
  match morfeusz.next r with
  | (Returns mi, r') => (makeTokenInfo mi, r')
  | (Throws _, r') => (emptyTokenInfo, r')
  end.

Definition tagsetId (m : Morf) : String := makeString (morfeusz.getTagsetId m).

Definition tag (m : Morf) (tagId : Z) : String :=
  match morfeusz.getTag m tagId with
  | Returns s => makeString s
  | Throws _ => emptyString
  end.

Definition tagId (m : Morf) (tag : String) : Z :=
  match morfeusz.getTagId m (stdString tag) with
  | Returns i => i
  | Throws _ => invalidId
  end.

Definition name (m : Morf) (nameId : Z) : String :=
  match morfeusz.getName m nameId with
  | Returns s => makeString s
  | Throws _ => emptyString
  end.

Definition nameId (m : Morf) (name : String) : Z :=
  match morfeusz.getNameId m (stdString name) with
  | Returns i => i
  | Throws _ => invalidId
  end.

Definition labelsAsString (m : Morf) (labelsId : Z) : String :=
  match morfeusz.getLabelsAsString m labelsId with
  | Returns s => makeString s
  | Throws _ => emptyString
  end.

Definition labels (m : Morf) (labelsId : Z) : StringArray :=
  match morfeusz.getLabels m labelsId with
  | Returns lst => makeStringArray lst
  | Throws _ => emptyStringArray
  end.

Definition labelsId (m : Morf) (labels : String) : Z :=
  match morfeusz.getLabelsId m (stdString labels) with
  | Returns i => i
  | Throws _ => invalidId
  end.

Definition tagsCount (m : Morf) : Z := morfeusz.getTagsCount m.
Definition namesCount (m : Morf) : Z := morfeusz.getNamesCount m.
Definition labelsCount (m : Morf) : Z := morfeusz.getLabelsCount m.

Definition generate (m : Morf) (lemma : String) : TokenInfoArray :=
  match morfeusz.generate m (stdString lemma) with
  | Returns vec => makeTokenInfoArray vec
  | Throws e => makeTokenInfoArray_exception e
  end.

Definition generateWithTagID (m : Morf) (tagId : Z) (lemma : String)
  : TokenInfoArray :=
  match morfeusz.generateTag m (stdString lemma) tagId with
  | Returns vec => makeTokenInfoArray vec
  | Throws e => makeTokenInfoArray_exception e
  end.

Definition dictId (m : Morf) : String := makeString (morfeusz.getDictID m).

Definition dictCopyright (m : Morf) : String :=
  makeString (morfeusz.getDictCopyright m).

(** What every setter does with the outcome of the method it wraps:
    [return noError] after the call, [return makeError(e)] in the handler. *)
Definition caught (r : Effect Morf) : Error * Morf :=
  match r with
  | Done m' => (noError, m')
  | Raised e m' => (makeError e, m')
  end.

Definition setAggl (m : Morf) (aggl : String) : Error * Morf :=
  caught (morfeusz.setAggl (stdString aggl) m).

Definition setPraet (m : Morf) (praet : String) : Error * Morf :=
  caught (morfeusz.setPraet (stdString praet) m).

Definition setCharset (m : Morf) (encoding : Z) : Behaviour (Error * Morf) :=
  (v <- index translateCharset encoding ;;
   Defined (caught (morfeusz.setCharset v m)))%behaviour.

Definition setCaseHandling (m : Morf) (caseHandling : Z)
  : Behaviour (Error * Morf) :=
  (v <- index translateCaseHandling caseHandling ;;
   Defined (caught (morfeusz.setCaseHandling v m)))%behaviour.

Definition setTokenNumbering (m : Morf) (numbering : Z)
  : Behaviour (Error * Morf) :=
  (v <- index translateTokenNumbering numbering ;;
   Defined (caught (morfeusz.setTokenNumbering v m)))%behaviour.

Definition setWhitespaceHandling (m : Morf) (handling : Z)
  : Behaviour (Error * Morf) :=
  (v <- index translateWhitespaceHandling handling ;;
   Defined (caught (morfeusz.setWhitespaceHandling v m)))%behaviour.

Definition setDictionary (m : Morf) (dictName : String) : Error * Morf :=
  caught (morfeusz.setDictionary (stdString dictName) m).

Definition aggl (m : Morf) : String := makeString (morfeusz.getAggl m).
Definition praet (m : Morf) : String := makeString (morfeusz.getPraet m).

Definition charset (m : Morf) : Z :=
  reverseTranslate morfeusz.Charset_eqb translateCharset
    (morfeusz.getCharset m).

Definition caseHandling (m : Morf) : Z :=
  reverseTranslate morfeusz.CaseHandling_eqb translateCaseHandling
    (morfeusz.getCaseHandling m).

Definition tokenNumbering (m : Morf) : Z :=
  reverseTranslate morfeusz.TokenNumbering_eqb translateTokenNumbering
    (morfeusz.getTokenNumbering m).

Definition whitespaceHandling (m : Morf) : Z :=
  reverseTranslate morfeusz.WhitespaceHandling_eqb translateWhitespaceHandling
    (morfeusz.getWhitespaceHandling m).

Definition availableAgglOptions (m : Morf) : StringArray :=
  makeStringArray (morfeusz.getAvailableAgglOptions m).

Definition availablePraetOptions (m : Morf) : StringArray :=
  makeStringArray (morfeusz.getAvailablePraetOptions m).

Definition dictionarySearchPaths (m : Morf) : StringArray :=
  makeStringArray (morfeusz.dictionarySearchPaths m).

(** Writing the data member [dictionarySearchPaths] of the object. *)
Definition with_paths (m : Morf) (dsp : list string) : Morf :=
  {| morfeusz.impl := morfeusz.impl m; morfeusz.dictionarySearchPaths := dsp |}.

(** [std::list<std::string>::remove]: erases every element equal to
    [value]. *)
Definition list_remove (value : string) (dsp : list string) : list string :=
  filter (fun x => negb (String.eqb x value)) dsp.

(** [push_front] *)
Definition prependToDictionarySearchPaths (m : Morf) (path : String) : Morf :=
  with_paths m (stdString path :: morfeusz.dictionarySearchPaths m).

(** [push_back] *)
Definition appendToDictionarySearchPaths (m : Morf) (path : String) : Morf :=
  with_paths m (morfeusz.dictionarySearchPaths m ++ [stdString path]).

Definition removeFromDictionarySearchPaths (m : Morf) (path : String)
  : Z * Morf :=
  let dsp := morfeusz.dictionarySearchPaths m in
  let previousLength := List.length dsp in
  let dsp' := list_remove (stdString path) dsp in
  (wrap_int (Z.of_nat previousLength - Z.of_nat (List.length dsp')),
   with_paths m dsp').

Definition clearDictionarySearchPaths (m : Morf) : Morf := with_paths m [].

Definition cloneMorf (m : Morf) : Morf := morfeusz.clone m.

End Shim.

End C.

(** ** [morfeusz.go]: the Go package

    A Go [error] is [None] for [nil] and [Some] of its message otherwise; a
    Go pointer or slice that may be [nil] is an [option].  The enumerated
    types [Charset], [TokenNumbering], [CaseHandling], [WhitespaceHandling]
    and [Usage] are the header's ordinals. *)

Definition error : Type := option string.

Definition UTF8 : Z := C.UTF8.
Definition ISO8859_2 : Z := C.ISO8859_2.
Definition CP1250 : Z := C.CP1250.
Definition CP852 : Z := C.CP852.
Definition SeparateNumbering : Z := C.SEPARATE_NUMBERING.
Definition ContinuousNumbering : Z := C.CONTINUOUS_NUMBERING.
Definition ConditionallyCaseSensitive : Z := C.CONDITIONALLY_CASE_SENSITIVE.
Definition StrictlyCaseSensitive : Z := C.STRICTLY_CASE_SENSITIVE.
Definition IgnoreCase : Z := C.IGNORE_CASE.
Definition SkipWhitespaces : Z := C.SKIP_WHITESPACES.
Definition AppendWhitespaces : Z := C.APPEND_WHITESPACES.
Definition KeepWhitespaces : Z := C.KEEP_WHITESPACES.
Definition BothAnalyseAndGenerate : Z := C.BOTH_ANALYSE_AND_GENERATE.
Definition AnalyseOnly : Z := C.ANALYSE_ONLY.
Definition GenerateOnly : Z := C.GENERATE_ONLY.

Module Config.

(** [DictNameNil] is not a field of the Go struct: it tells whether the data
    pointer of the string [DictName] is nil, which the shim looks at.  It can
    be nil only for an empty string, and is nil for the zero value; an empty
    string cut out of another string keeps a pointer into it. *)
Record t : Type := {
  DictName : string;
  DictNameNil : bool;
  Aggl : string;
  Praet : string;
  Charset : Z;
  TokenNumbering : Z;
  CaseHandling : Z;
  WhitespaceHandling : Z;
  Usage : Z;
}.

(** [Config{}] *)
Definition zero : t :=
  {| DictName := EmptyString; DictNameNil := true; Aggl := EmptyString;
     Praet := EmptyString; Charset := 0;
     TokenNumbering := 0; CaseHandling := 0; WhitespaceHandling := 0;
     Usage := 0 |}.

End Config.

Definition errInvalidCharset : error := Some "Invalid charset".
Definition errInvalidUsage : error := Some "Invalid usage option".

Definition quote : string := String (ascii_of_nat 34) EmptyString.

(** [fmt.Errorf] with the dictionary name between double quotes. *)
Definition errFailedToLoad (dictName : string) : error :=
  Some ("Failed to load dictionary " ++ quote ++ dictName ++ quote)%string.

(** [makeStructString]: a view of the Go string's own characters.  A
    string that is not empty has a data pointer; for the empty string
    [nilData] tells whether the pointer is nil. *)
Definition makeStructStringAt (nilData : bool) (s : string) : C.String :=
  {| C.p := match s with
            | EmptyString => if nilData then None else Some s
            | _ => Some s
            end;
     C.n := size_to_int (String.length s) |}.

(** For the arguments of every function but [createInstance] the shim
    reads the characters only ([stdString]), whatever the pointer of an
    empty string is; there the pointer is taken to be nil. *)
Definition makeStructString (s : string) : C.String :=
  makeStructStringAt true s.

(** [C.GoStringN(s.p, s.n)] *)
Definition goString (s : C.String) : string :=
  match C.p s with
  | Some chars => substring 0 (Z.to_nat (C.n s)) chars
  | None => EmptyString
  end.

Definition goStringFree (s : C.String) : string := goString s.

Definition newError (s : C.String) : error :=
  if C.n s =? 0 then None else Some (goStringFree s).

(** What a Go function that may panic does. *)
Inductive Outcome (A : Type) : Type :=
| Returned (a : A)
| Panics.
Arguments Returned {A} a.
Arguments Panics {A}.

(** The slice of the first [len] elements that Go takes through a pointer
    to an array of [1 << 28] elements: slicing through a nil array pointer
    panics, and so does a length that is negative or above the 2^28
    elements of the array type. *)
Definition sliceView {A : Type} (ptr : option (list A)) (len : Z)
  : Outcome (list A) :=
  match ptr with
  | None => Panics
  | Some l =>
      if (len <? 0) || (len >? 2 ^ 28) then Panics
      else Returned (firstn (Z.to_nat len) l)
  end.

Definition fromStringArray (arr : C.StringArray) : Outcome (list string) :=
  match sliceView (C.strings arr) (C.strings_length arr) with
  | Returned view => Returned (map goStringFree view)
  | Panics => Panics
  end.

Definition gcTokenInfo (t : C.TokenInfo) : C.TokenInfo := t.

Definition fromTokenInfoArray (arr : C.TokenInfoArray)
  : Outcome (option (list C.TokenInfo) * error) :=
  match C.p (C.error arr) with
  | Some _ => Returned (None, newError (C.error arr))
  | None =>
      match sliceView (C.tokens arr) (C.length arr) with
      | Returned view => Returned (Some (map gcTokenInfo view), None)
      | Panics => Panics
      end
  end.

Section Go.

Context {L : morfeusz.Library}.

(** [Morfeusz] and [Result] wrap a native handle; the methods below take
    the state of the object behind the handle and, when they change it,
    return the new state. *)
Definition Morfeusz : Type := C.Morf.
Definition Result : Type := C.Res.

Definition gcMorfeusz (m : C.Morf) : Morfeusz := m.


Definition Next (r : Result) : bool * Result :=
  let (h, r') := C.hasNext r in
  (negb (h =? 0), r').

Definition TokenInfo (r : Result) : option C.TokenInfo * Result :=
  let (t, r') := C.next r in
  if C.n (C.orth t) =? 0 then (None, r') else (Some (gcTokenInfo t), r').

Definition StartNode (t : C.TokenInfo) : Z := go_int (C.startNode t).
Definition EndNode (t : C.TokenInfo) : Z := go_int (C.endNode t).
Definition Orth (t : C.TokenInfo) : string := goString (C.orth t).
Definition Lemma_ (t : C.TokenInfo) : string := goString (C.lemma t).
Definition IsIgn (t : C.TokenInfo) : bool := C.tagID t =? 0.
Definition IsWhitespace (t : C.TokenInfo) : bool := C.tagID t =? 1.

Definition TagsetID (m : Morfeusz) : string := goStringFree (C.tagsetId m).

Definition Tag (m : Morfeusz) (tagID : Z) : string :=
  goStringFree (C.tag m (C.int tagID)).

Definition TagID (m : Morfeusz) (tag : string) : Z :=
  go_int (C.tagId m (makeStructString tag)).

Definition Name (m : Morfeusz) (nameID : Z) : string :=
  goStringFree (C.name m (C.int nameID)).

Definition NameID (m : Morfeusz) (name : string) : Z :=
  go_int (C.nameId m (makeStructString name)).

Definition LabelsAsString (m : Morfeusz) (labelsID : Z) : string :=
  goStringFree (C.labelsAsString m (C.int labelsID)).

Definition Labels (m : Morfeusz) (labelsID : Z) : Outcome (list string) :=
  fromStringArray (C.labels m (C.int labelsID)).

Definition LabelsID (m : Morfeusz) (labels : string) : Z :=
  go_int (C.labelsId m (makeStructString labels)).

Definition TagsCount (m : Morfeusz) : Z := go_int (C.tagsCount m).
Definition NamesCount (m : Morfeusz) : Z := go_int (C.namesCount m).
Definition LabelsCount (m : Morfeusz) : Z := go_int (C.labelsCount m).


Definition GenerateWithTagID (m : Morfeusz) (tagID : Z) (lemma : string)
  : Outcome (option (list C.TokenInfo) * error) :=
  fromTokenInfoArray
    (C.generateWithTagID m (C.int tagID) (makeStructString lemma)).

Definition DictID (m : Morfeusz) : string := goStringFree (C.dictId m).

(** A setter's native result, as a Go [error] and the new state. *)
Definition asError (r : C.Error * C.Morf) : error * Morfeusz :=
  (newError (fst r), snd r).

Definition SetAggl (m : Morfeusz) (aggl : string) : error * Morfeusz :=
  asError (C.setAggl m (makeStructString aggl)).

Definition SetPraet (m : Morfeusz) (praet : string) : error * Morfeusz :=
  asError (C.setPraet m (makeStructString praet)).

Definition SetCharset (m : Morfeusz) (encoding : Z)
  : Behaviour (error * Morfeusz) :=
  if (encoding <? UTF8) || (encoding >? CP852)
  then Defined (errInvalidCharset, m)
  else (r <- C.setCharset m encoding ;; Defined (asError r))%behaviour.

Definition SetCaseHandling (m : Morfeusz) (caseHandling : Z)
  : Behaviour (error * Morfeusz) :=
  (r <- C.setCaseHandling m caseHandling ;; Defined (asError r))%behaviour.

Definition SetTokenNumbering (m : Morfeusz) (numbering : Z)
  : Behaviour (error * Morfeusz) :=
  (r <- C.setTokenNumbering m numbering ;; Defined (asError r))%behaviour.

Definition SetWhitespaceHandling (m : Morfeusz) (handling : Z)
  : Behaviour (error * Morfeusz) :=
  (r <- C.setWhitespaceHandling m handling ;; Defined (asError r))%behaviour.

Definition SetDictionary (m : Morfeusz) (dictName : string)
  : error * Morfeusz :=
  asError (C.setDictionary m (makeStructString dictName)).

Definition Charset (m : Morfeusz) : Z := C.charset m.
Definition Aggl (m : Morfeusz) : string := goStringFree (C.aggl m).
Definition Praet (m : Morfeusz) : string := goStringFree (C.praet m).
Definition CaseHandling (m : Morfeusz) : Z := C.caseHandling m.
Definition TokenNumbering (m : Morfeusz) : Z := C.tokenNumbering m.
Definition WhitespaceHandling (m : Morfeusz) : Z := C.whitespaceHandling m.

Definition AvailableAgglOptions (m : Morfeusz) : Outcome (list string) :=
  fromStringArray (C.availableAgglOptions m).

Definition AvailablePraetOptions (m : Morfeusz) : Outcome (list string) :=
  fromStringArray (C.availablePraetOptions m).

Definition DictionarySearchPaths (m : Morfeusz) : Outcome (list string) :=
  fromStringArray (C.dictionarySearchPaths m).

Definition PrependToDictionarySearchPaths (m : Morfeusz) (path : string)
  : Morfeusz :=
  C.prependToDictionarySearchPaths m (makeStructString path).

Definition AppendToDictionarySearchPaths (m : Morfeusz) (path : string)
  : Morfeusz :=
  C.appendToDictionarySearchPaths m (makeStructString path).

Definition RemoveFromDictionarySearchPaths (m : Morfeusz) (path : string)
  : Z * Morfeusz :=
  let (k, m') := C.removeFromDictionarySearchPaths m (makeStructString path) in
  (go_int k, m').

Definition ClearDictionarySearchPaths (m : Morfeusz) : Morfeusz :=
  C.clearDictionarySearchPaths m.

Definition Clone (m : Morfeusz) : Morfeusz := gcMorfeusz (C.cloneMorf m).

(** [if err := step; err != nil { return nil, err }], then the rest of
    [New]. *)
Definition orReturn (r : error * Morfeusz)
    (rest : Morfeusz -> Behaviour (option Morfeusz * error))
  : Behaviour (option Morfeusz * error) :=
  match r with
  | (Some err, _) => Defined (None, Some err)
  | (None, ret) => rest ret
  end.

Definition New (c : option Config.t) : Behaviour (option Morfeusz * error) :=
  let c := match c with None => Config.zero | Some c => c end in
  if (Config.Usage c <? BothAnalyseAndGenerate)
     || (Config.Usage c >? GenerateOnly)
  then Defined (None, errInvalidUsage)
  else
    (m <- C.createInstance
            (makeStructStringAt (Config.DictNameNil c) (Config.DictName c))
            (Config.Usage c) ;;
     match m with
     | None => Defined (None, errFailedToLoad (Config.DictName c))
     | Some m =>
         let ret := gcMorfeusz m in
         orReturn (if String.eqb (Config.Aggl c) EmptyString
                   then (None, ret) else SetAggl ret (Config.Aggl c))
           (fun ret =>
         orReturn (if String.eqb (Config.Praet c) EmptyString
                   then (None, ret) else SetPraet ret (Config.Praet c))
           (fun ret =>
         r <- SetCharset ret (Config.Charset c) ;;
         orReturn r (fun ret =>
         r <- SetCaseHandling ret (Config.CaseHandling c) ;;
         orReturn r (fun ret =>
         r <- SetTokenNumbering ret (Config.TokenNumbering c) ;;
         orReturn r (fun ret =>
         r <- SetWhitespaceHandling ret (Config.WhitespaceHandling c) ;;
         orReturn r (fun ret =>
         Defined (Some ret, None)))))))
     end)%behaviour.

End Go.

(** ** What is assumed of the library

    Each contract below is a property of [libmorfeusz2] that the binding
    relies on and cannot establish itself.  None is assumed globally: a
    statement names the contracts it needs. *)

(** A string short enough for its length to be stored in an [int]. *)
Definition fits (s : string) : Prop := Z.of_nat (String.length s) < 2 ^ 31.

(** An exception whose message is a non-empty C string. *)
Definition has_message (e : exception) : Prop :=
  0 < Z.of_nat (strlen (what e)) < 2 ^ 31.

(** The message as the shim copies it. *)
Definition message (e : exception) : string :=
  substring 0 (strlen (what e)) (what e).


(** What [TokenInfo] returns for a cursor with [l] pending. *)
Definition delivered (l : list morfeusz.MorphInterpretation)
  : option C.TokenInfo :=
  match l with
  | [] => None
  | mi :: _ =>
      if C.n (C.orth (C.makeTokenInfo mi)) =? 0 then None
      else Some (C.makeTokenInfo mi)
  end.

Section Contracts.

Context {L : morfeusz.Library}.

(** [ResultsIterator]: [pending r] is the sequence of interpretations that
    [r] has yet to deliver.  [hasNext] tells whether it is empty and may
    buffer input, but delivers nothing; [next] delivers the first pending
    interpretation, and throws [std::out_of_range] when none is left. *)
Definition iterator_contract
    (pending : morfeusz.ResultsIterator -> list morfeusz.MorphInterpretation)
  : Prop :=
  (forall r,
      fst (morfeusz.hasNext r)
      = match pending r with [] => false | _ :: _ => true end)
  /\ (forall r, pending (snd (morfeusz.hasNext r)) = pending r)
  /\ (forall r mi rest,
         pending r = mi :: rest ->
         fst (morfeusz.next r) = Returns mi
         /\ pending (snd (morfeusz.next r)) = rest)
  /\ (forall r,
         pending r = [] ->
         (exists e, fst (morfeusz.next r) = Throws e)
         /\ pending (snd (morfeusz.next r)) = []).



(** The position of the first occurrence of [s] in [table]. *)
Fixpoint position (s : string) (table : list string) : option nat :=
  match table with
  | [] => None
  | x :: rest =>
      if String.eqb x s then Some O
      else match position s rest with
           | Some k => Some (S k)
           | None => None
           end
  end.

(** One namespace of [IdResolver] (tags, names or labels) holding [table]:
    ids are positions in the table; resolving an id outside it, or a string
    that is not in it, throws. *)
Definition resolver_contract
    (byId : C.Morf -> Z -> Fallible string)
    (byString : C.Morf -> string -> Fallible Z)
    (count : C.Morf -> Z)
    (m : C.Morf) (table : list string) : Prop :=
  count m = Z.of_nat (List.length table)
  /\ Z.of_nat (List.length table) < 2 ^ 31
  /\ Forall fits table
  /\ (forall i,
         match (if i <? 0 then None else nth_error table (Z.to_nat i)) with
         | Some s => byId m i = Returns s
         | None => exists e, byId m i = Throws e
         end)
  /\ (forall s,
         match position s table with
         | Some k => byString m s = Returns (Z.of_nat k)
         | None => exists e, byString m s = Throws e
         end).

(** The id [i] is the one its own string resolves to: no smaller id of
    the table holds the same string. *)
Definition canonical (table : list string) (i : Z) : Prop :=
  exists s, nth_error table (Z.to_nat i) = Some s
            /\ position s table = Some (Z.to_nat i).

End Contracts.

(** ** [New], step by step

    The configuration steps of [New] in the order it takes them, and the
    loop that [New] unrolls: run each step on the instance, stop at the
    first error. *)

Section Steps.

Context {L : morfeusz.Library}.

Definition Step : Type := Morfeusz -> Behaviour (error * Morfeusz).

Definition configSteps (c : Config.t) : list Step :=
  [ (fun ret => Defined (if String.eqb (Config.Aggl c) EmptyString
                         then (None, ret) else SetAggl ret (Config.Aggl c)));
    (fun ret => Defined (if String.eqb (Config.Praet c) EmptyString
                         then (None, ret) else SetPraet ret (Config.Praet c)));
    (fun ret => SetCharset ret (Config.Charset c));
    (fun ret => SetCaseHandling ret (Config.CaseHandling c));
    (fun ret => SetTokenNumbering ret (Config.TokenNumbering c));
    (fun ret => SetWhitespaceHandling ret (Config.WhitespaceHandling c)) ].

Fixpoint runSteps (steps : list Step) (ret : Morfeusz)
  : Behaviour (option Morfeusz * error) :=
  match steps with
  | [] => Defined (Some ret, None)
  | s :: rest => (r <- s ret ;; orReturn r (runSteps rest))%behaviour
  end.

(** Every step of [steps] succeeds, taking the instance from [m] to
    [m']. *)
Inductive stepsSucceed : list Step -> Morfeusz -> Morfeusz -> Prop :=
| succeed_nil : forall m, stepsSucceed [] m m
| succeed_cons : forall s rest m m1 m',
    s m = Defined (None, m1) ->
    stepsSucceed rest m1 m' ->
    stepsSucceed (s :: rest) m m'.

(** Some step of [steps] returns the error [err], all steps before it
    having succeeded. *)
Inductive stepFails : list Step -> Morfeusz -> string -> Prop :=
| fails_here : forall s rest m err m1,
    s m = Defined (Some err, m1) ->
    stepFails (s :: rest) m err
| fails_later : forall s rest m m1 err,
    s m = Defined (None, m1) ->
    stepFails rest m1 err ->
    stepFails (s :: rest) m err.

(** The usage value is one of the three the package declares. *)
Definition usage_in_range (c : Config.t) : Prop :=
  BothAnalyseAndGenerate <= Config.Usage c <= GenerateOnly.

(** The native factory call [New] makes for [c], and its two outcomes. *)
Definition created (c : Config.t) : Behaviour (option C.Morf) :=
  C.createInstance
    (makeStructStringAt (Config.DictNameNil c) (Config.DictName c))
    (Config.Usage c).

Definition loads (c : Config.t) (m : C.Morf) : Prop :=
  created c = Defined (Some m).

Definition fails_to_load (c : Config.t) : Prop :=
  created c = Defined None.

(** [Next], [k] times in a row: the answers, and the cursor afterwards. *)
Fixpoint Next_times (k : nat) (r : Result) : list bool * Result :=
  match k with
  | O => ([], r)
  | S k' =>
      let (b, r1) := Next r in
      let (bs, r2) := Next_times k' r1 in
      (b :: bs, r2)
  end.


End Steps.

(** ** A small library

    An instance of the library interface with a dictionary of a few
    entries, on which every contract above holds and every operation of the
    binding can be run. *)

Module Toy.

Record State : Type := {
  usage : morfeusz.MorfeuszUsage;
  charset : morfeusz.Charset;
  caseHandling : morfeusz.CaseHandling;
  tokenNumbering : morfeusz.TokenNumbering;
  whitespaceHandling : morfeusz.WhitespaceHandling;
  aggl : string;
  praet : string;
  dictionary : string;
}.

(** The iterator reads its input lazily: [hasNext] moves the next unread
    interpretation into the buffer. *)
Record Iterator : Type := {
  buffer : list morfeusz.MorphInterpretation;
  unread : list morfeusz.MorphInterpretation;
}.

Definition Obj : Type := morfeusz.Morfeusz State.

Definition tags : list string :=
  [ "ign"; "sp"; "subst:sg:nom.acc:m3"; "subst:sg:gen:m3"; "prep:gen:nwok" ].
Definition names : list string := [ EmptyString; "nazwa_pospolita" ].
Definition labelSets : list string := [ EmptyString; "bot." ].
Definition agglOptions : list string := [ "strict"; "permissive"; "isolated" ].
Definition praetOptions : list string := [ "split"; "composite" ].
Definition sgjp : string := "sgjp".

Definition interp (o l : string) (t nm lb : Z) : morfeusz.MorphInterpretation :=
  {| morfeusz.startNode := 0; morfeusz.endNode := 1; morfeusz.orth := o;
     morfeusz.lemma := l; morfeusz.tagId := t; morfeusz.nameId := nm;
     morfeusz.labelsId := lb |}.

Definition forms : list morfeusz.MorphInterpretation :=
  [ interp "bez" "bez:S" 2 1 1; interp "bzu" "bez:S" 3 1 1;
    interp "bez" "bez:P" 4 0 0 ].

Definition fresh (u : morfeusz.MorfeuszUsage) : Obj :=
  {| morfeusz.impl :=
       {| usage := u; charset := morfeusz.UTF8;
          caseHandling := morfeusz.CONDITIONALLY_CASE_SENSITIVE;
          tokenNumbering := morfeusz.SEPARATE_NUMBERING;
          whitespaceHandling := morfeusz.SKIP_WHITESPACES;
          aggl := "strict"; praet := "split"; dictionary := sgjp |};
     morfeusz.dictionarySearchPaths := [ "/usr/share/morfeusz2/dictionaries" ] |}.

Definition mentions (s : string) (l : list string) : bool :=
  existsb (String.eqb s) l.

Definition createInstance (dictName : option string)
    (u : morfeusz.MorfeuszUsage) : Fallible Obj :=
  match dictName with
  | None => Returns (fresh u)
  | Some d =>
      if String.eqb d sgjp then Returns (fresh u)
      else Throws {| what := "Failed to load dictionary" |}
  end.

Definition update (f : State -> State) (m : Obj) : Obj :=
  {| morfeusz.impl := f (morfeusz.impl m);
     morfeusz.dictionarySearchPaths := morfeusz.dictionarySearchPaths m |}.

Definition set_aggl (v : string) (s : State) : State :=
  {| usage := usage s; charset := charset s; caseHandling := caseHandling s;
     tokenNumbering := tokenNumbering s;
     whitespaceHandling := whitespaceHandling s;
     aggl := v; praet := praet s; dictionary := dictionary s |}.

Definition set_praet (v : string) (s : State) : State :=
  {| usage := usage s; charset := charset s; caseHandling := caseHandling s;
     tokenNumbering := tokenNumbering s;
     whitespaceHandling := whitespaceHandling s;
     aggl := aggl s; praet := v; dictionary := dictionary s |}.

Definition set_charset (v : morfeusz.Charset) (s : State) : State :=
  {| usage := usage s; charset := v; caseHandling := caseHandling s;
     tokenNumbering := tokenNumbering s;
     whitespaceHandling := whitespaceHandling s;
     aggl := aggl s; praet := praet s; dictionary := dictionary s |}.

Definition set_caseHandling (v : morfeusz.CaseHandling) (s : State) : State :=
  {| usage := usage s; charset := charset s; caseHandling := v;
     tokenNumbering := tokenNumbering s;
     whitespaceHandling := whitespaceHandling s;
     aggl := aggl s; praet := praet s; dictionary := dictionary s |}.

Definition set_tokenNumbering (v : morfeusz.TokenNumbering) (s : State)
  : State :=
  {| usage := usage s; charset := charset s; caseHandling := caseHandling s;
     tokenNumbering := v; whitespaceHandling := whitespaceHandling s;
     aggl := aggl s; praet := praet s; dictionary := dictionary s |}.

Definition set_whitespaceHandling (v : morfeusz.WhitespaceHandling)
    (s : State) : State :=
  {| usage := usage s; charset := charset s; caseHandling := caseHandling s;
     tokenNumbering := tokenNumbering s; whitespaceHandling := v;
     aggl := aggl s; praet := praet s; dictionary := dictionary s |}.

Definition setAggl (v : string) (m : Obj) : Effect Obj :=
  if mentions v agglOptions then Done (update (set_aggl v) m)
  else Raised {| what := "Invalid aggl option: " ++ v |} m.

Definition setPraet (v : string) (m : Obj) : Effect Obj :=
  if mentions v praetOptions then Done (update (set_praet v) m)
  else Raised {| what := "Invalid praet option: " ++ v |} m.

Definition setDictionary (v : string) (m : Obj) : Effect Obj :=
  if String.eqb v sgjp then Done m
  else Raised {| what := "Failed to load dictionary" |} m.

Definition byId (table : list string) (i : Z) : Fallible string :=
  match (if i <? 0 then None else nth_error table (Z.to_nat i)) with
  | Some s => Returns s
  | None => Throws {| what := "Invalid id" |}
  end.

Definition byString (table : list string) (s : string) : Fallible Z :=
  match position s table with
  | Some k => Returns (Z.of_nat k)
  | None => Throws {| what := "Invalid string" |}
  end.

Definition canGenerate (m : Obj) : bool :=
  match usage (morfeusz.impl m) with
  | morfeusz.ANALYSE_ONLY => false
  | _ => true
  end.

Definition canAnalyse (m : Obj) : bool :=
  match usage (morfeusz.impl m) with
  | morfeusz.GENERATE_ONLY => false
  | _ => true
  end.

Definition matching (l : string) : list morfeusz.MorphInterpretation :=
  filter (fun f => String.eqb l (morfeusz.lemma f)
                   || String.prefix (l ++ ":") (morfeusz.lemma f)) forms.

Definition unknown (text : string) : morfeusz.MorphInterpretation :=
  interp text text 0 0 0.

Definition generate (m : Obj) (l : string)
  : Fallible (list morfeusz.MorphInterpretation) :=
  if canGenerate m
  then Returns (match matching l with [] => [unknown l] | fs => fs end)
  else Throws {| what := "Generator is not available" |}.

Definition generateTag (m : Obj) (l : string) (t : Z)
  : Fallible (list morfeusz.MorphInterpretation) :=
  match generate m l with
  | Returns fs => Returns (filter (fun f => morfeusz.tagId f =? t) fs)
  | Throws e => Throws e
  end.

Definition analyse (m : Obj) (text : string) : Fallible Iterator :=
  if canAnalyse m
  then Returns
         {| buffer := [];
            unread :=
              match text with
              | EmptyString => []
              | _ =>
                  match filter (fun f => String.eqb text (morfeusz.orth f))
                          forms with
                  | [] => [unknown text]
                  | fs => fs
                  end
              end |}
  else Throws {| what := "Analyzer is not available" |}.

Definition hasNext (r : Iterator) : bool * Iterator :=
  match buffer r, unread r with
  | [], [] => (false, r)
  | [], x :: xs => (true, {| buffer := [x]; unread := xs |})
  | _ :: _, _ => (true, r)
  end.

Definition next (r : Iterator)
  : Fallible morfeusz.MorphInterpretation * Iterator :=
  match buffer r, unread r with
  | x :: b, _ => (Returns x, {| buffer := b; unread := unread r |})
  | [], x :: xs => (Returns x, {| buffer := []; unread := xs |})
  | [], [] => (Throws {| what := "No more interpretations" |}, r)
  end.

Definition pending (r : Iterator) : list morfeusz.MorphInterpretation :=
  buffer r ++ unread r.

#[export] Instance library : morfeusz.Library := {|
  morfeusz.Impl := State;
  morfeusz.ResultsIterator := Iterator;
  morfeusz.createInstance := createInstance;
  morfeusz.clone := fun m => m;
  morfeusz.analyse := analyse;
  morfeusz.hasNext := hasNext;
  morfeusz.next := next;
  morfeusz.generate := generate;
  morfeusz.generateTag := generateTag;
  morfeusz.getTagsetId := fun _ => "pl.sgjp.morfeusz-0.7.0";
  morfeusz.getTag := fun _ => byId tags;
  morfeusz.getTagId := fun _ => byString tags;
  morfeusz.getName := fun _ => byId names;
  morfeusz.getNameId := fun _ => byString names;
  morfeusz.getLabelsAsString := fun _ => byId labelSets;
  morfeusz.getLabels :=
    fun _ i => match byId labelSets i with
               | Returns EmptyString => Returns []
               | Returns s => Returns [s]
               | Throws e => Throws e
               end;
  morfeusz.getLabelsId := fun _ => byString labelSets;
  morfeusz.getTagsCount := fun _ => Z.of_nat (List.length tags);
  morfeusz.getNamesCount := fun _ => Z.of_nat (List.length names);
  morfeusz.getLabelsCount := fun _ => Z.of_nat (List.length labelSets);
  morfeusz.getDictID := fun m => dictionary (morfeusz.impl m);
  morfeusz.getDictCopyright := fun _ => "none";
  morfeusz.setAggl := setAggl;
  morfeusz.setPraet := setPraet;
  morfeusz.setCharset := fun v m => Done (update (set_charset v) m);
  morfeusz.setCaseHandling := fun v m => Done (update (set_caseHandling v) m);
  morfeusz.setTokenNumbering :=
    fun v m => Done (update (set_tokenNumbering v) m);
  morfeusz.setWhitespaceHandling :=
    fun v m => Done (update (set_whitespaceHandling v) m);
  morfeusz.setDictionary := setDictionary;
  morfeusz.getAggl := fun m => aggl (morfeusz.impl m);
  morfeusz.getPraet := fun m => praet (morfeusz.impl m);
  morfeusz.getCharset := fun m => charset (morfeusz.impl m);
  morfeusz.getCaseHandling := fun m => caseHandling (morfeusz.impl m);
  morfeusz.getTokenNumbering := fun m => tokenNumbering (morfeusz.impl m);
  morfeusz.getWhitespaceHandling :=
    fun m => whitespaceHandling (morfeusz.impl m);
  morfeusz.getAvailableAgglOptions := fun _ => agglOptions;
  morfeusz.getAvailablePraetOptions := fun _ => praetOptions;
|}.

(** The instance [New(nil)] creates, and one that can only analyse. *)
Definition both : Obj := fresh morfeusz.BOTH_ANALYSE_AND_GENERATE.

(** [Config{Aggl: "xyz"}] *)
Definition badAggl : Config.t :=
  {| Config.DictName := EmptyString; Config.DictNameNil := true;
     Config.Aggl := "xyz";
     Config.Praet := EmptyString; Config.Charset := 0;
     Config.TokenNumbering := 0; Config.CaseHandling := 0;
     Config.WhitespaceHandling := 0; Config.Usage := 0 |}.

End Toy.

(** ** The rest of the package

    Methods of [TokenInfo] that resolve its ids against an instance, one
    more string getter, and two more things a statement may assume. *)

(** A string without a NUL character inside: a C string holds all of it. *)
Definition c_string (s : string) : Prop := strlen s = String.length s.

(** A list of strings that Go can slice whole: at most 2^28 of them, each
    of a size an [int] can hold. *)
Definition crosses (lst : list string) : Prop :=
  Forall fits lst /\ Z.of_nat (List.length lst) <= 2 ^ 28.



Section Rest.

Context {L : morfeusz.Library}.

Definition DictCopyright (m : Morfeusz) : string :=
  goStringFree (C.dictCopyright m).

(** [(t *TokenInfo) Tag(morf)] and its siblings. *)
Definition TokenInfo_Tag (t : C.TokenInfo) (morf : Morfeusz) : string :=
  Tag morf (go_int (C.tagID t)).

Definition TokenInfo_Name (t : C.TokenInfo) (morf : Morfeusz) : string :=
  Name morf (go_int (C.nameID t)).

Definition TokenInfo_LabelsAsString (t : C.TokenInfo) (morf : Morfeusz)
  : string :=
  LabelsAsString morf (go_int (C.labelsID t)).

Definition TokenInfo_Labels (t : C.TokenInfo) (morf : Morfeusz)
  : Outcome (list string) :=
  Labels morf (go_int (C.labelsID t)).

(** A setter of the library that takes [value]: it returns, and the getter
    then reads [value]. *)
Definition stores {A : Type} (set : A -> C.Morf -> Effect C.Morf)
    (get : C.Morf -> A) (value : A) (m : C.Morf) : Prop :=
  exists m', set value m = Done m' /\ get m' = value.

End Rest.

(** * Properties *)

(** ** Integers and strings across the boundary *)

Lemma wrap_int_id (z : Z) : in_int z -> wrap_int z = z.
Proof.
  unfold in_int, int_min, int_max, wrap_int. intros H.
  rewrite Z.mod_small; lia.
Qed.

Lemma wrap_int_period (z : Z) : wrap_int (z + 2 ^ 32) = wrap_int z.
Proof.
  unfold wrap_int.
  replace (z + 2 ^ 32 + 2 ^ 31) with (z + 2 ^ 31 + 1 * 2 ^ 32) by lia.
  now rewrite Z.mod_add by lia.
Qed.

Lemma size_to_int_fits (k : nat) :
  Z.of_nat k < 2 ^ 31 -> size_to_int k = Z.of_nat k.
Proof.
  intros H. unfold size_to_int. apply wrap_int_id.
  unfold in_int, int_min, int_max. lia.
Qed.

Lemma substring_all (s : string) : substring 0 (String.length s) s = s.
Proof.
  induction s as [| c s IH]; simpl; [reflexivity | now rewrite IH].
Qed.

Lemma stdString_view (s : string) :
  fits s -> C.stdString (makeStructString s) = s.
Proof.
  unfold fits. intros H.
  unfold C.stdString, makeStructString, makeStructStringAt.
  destruct s as [| c s]; [reflexivity |].
  cbn [C.p C.n]. rewrite size_to_int_fits by exact H.
  rewrite Nat2Z.id. apply substring_all.
Qed.

Lemma goString_makeString (s : string) :
  fits s -> goString (C.makeString s) = s.
Proof.
  unfold fits. intros H.
  unfold goString, C.makeString, C.makeString_chars. cbn [C.p C.n].
  rewrite size_to_int_fits by exact H.
  rewrite Nat2Z.id, !substring_all. reflexivity.
Qed.

Lemma goString_emptyString : goString C.emptyString = EmptyString.
Proof. reflexivity. Qed.

Lemma index_inside {T : Type} (table : list T) (i : Z) (x : T) :
  index table i = Defined x ->
  0 <= i < Z.of_nat (List.length table).
Proof.
  unfold index. destruct (Z.ltb_spec i 0) as [Hneg | Hpos]; [discriminate |].
  destruct (nth_error table (Z.to_nat i)) eqn:E; [| discriminate].
  intros _. assert (Hlt : (Z.to_nat i < List.length table)%nat).
  { apply nth_error_Some. congruence. }
  lia.
Qed.

Lemma index_outside {T : Type} (table : list T) (i : Z) :
  ~ 0 <= i < Z.of_nat (List.length table) ->
  index table i = OutOfBounds.
Proof.
  intros H. destruct (index table i) eqn:E; [| reflexivity].
  apply index_inside in E. contradiction.
Qed.

(** ** The dictionary search path list *)

Lemma list_remove_length (v : string) (l : list string) :
  List.length l
  = (List.length (C.list_remove v l) + count_occ string_dec l v)%nat.
Proof.
  induction l as [| x l IH]; [reflexivity |].
  unfold C.list_remove in *. simpl.
  destruct (String.eqb_spec x v) as [-> | Hne]; simpl.
  - destruct (string_dec v v); [lia | congruence].
  - destruct (string_dec x v); [congruence | lia].
Qed.

Lemma list_remove_absent (v : string) (l : list string) :
  ~ In v l -> C.list_remove v l = l.
Proof.
  induction l as [| x l IH]; intros H; [reflexivity |].
  unfold C.list_remove in *. simpl.
  destruct (String.eqb_spec x v) as [-> | Hne].
  - exfalso. apply H. now left.
  - simpl. f_equal. apply IH. intros Hin. apply H. now right.
Qed.

Lemma list_remove_gone (v : string) (l : list string) :
  ~ In v (C.list_remove v l).
Proof.
  unfold C.list_remove. rewrite filter_In. intros [_ H].
  now rewrite String.eqb_refl in H.
Qed.

Section Paths.

Context {L : morfeusz.Library}.

Let paths : Morfeusz -> list string := morfeusz.dictionarySearchPaths.

Lemma with_paths_same (m : Morfeusz) :
  C.with_paths m (morfeusz.dictionarySearchPaths m) = m.
Proof. now destruct m. Qed.

(** C9.  The search path list is an ordered sequence in which duplicates
    stay: prepending puts the path in front, appending puts it at the back,
    removing erases every element equal to the path (the others keep their
    order) and returns how many were erased, which is 0 with the list left
    as it was when the path does not occur, and clearing leaves the empty
    list.  The path and the list are of sizes an [int] can hold. *)
Theorem C9_search_path_list (m : Morfeusz) (path : string) :
  fits path ->
  Z.of_nat (List.length (paths m)) < 2 ^ 31 ->
  paths (PrependToDictionarySearchPaths m path) = path :: paths m
  /\ paths (AppendToDictionarySearchPaths m path) = (paths m ++ [path])%list
  /\ paths (snd (RemoveFromDictionarySearchPaths m path))
     = filter (fun x => negb (String.eqb x path)) (paths m)
  /\ ~ In path (paths (snd (RemoveFromDictionarySearchPaths m path)))
  /\ fst (RemoveFromDictionarySearchPaths m path)
     = Z.of_nat (count_occ string_dec (paths m) path)
  /\ (~ In path (paths m) -> RemoveFromDictionarySearchPaths m path = (0, m))
  /\ paths (ClearDictionarySearchPaths m) = [].
Proof.
  intros Hpath Hlen. subst paths.
  unfold PrependToDictionarySearchPaths, AppendToDictionarySearchPaths,
    RemoveFromDictionarySearchPaths, ClearDictionarySearchPaths,
    C.prependToDictionarySearchPaths, C.appendToDictionarySearchPaths,
    C.removeFromDictionarySearchPaths, C.clearDictionarySearchPaths, go_int.
  rewrite (stdString_view path Hpath). cbn [fst snd C.with_paths
    morfeusz.dictionarySearchPaths].
  pose proof (list_remove_length path (morfeusz.dictionarySearchPaths m))
    as Hcount.
  assert (Hk : wrap_int
                 (Z.of_nat (List.length (morfeusz.dictionarySearchPaths m))
                  - Z.of_nat (List.length
                      (C.list_remove path (morfeusz.dictionarySearchPaths m))))
               = Z.of_nat (count_occ string_dec
                             (morfeusz.dictionarySearchPaths m) path)).
  { rewrite wrap_int_id; unfold in_int, int_min, int_max; lia. }
  repeat split; try reflexivity.
  - apply list_remove_gone.
  - exact Hk.
  - intros Habsent. rewrite Hk.
    rewrite (list_remove_absent _ _ Habsent), with_paths_same.
    rewrite (proj1 (count_occ_not_In string_dec _ _) Habsent).
    reflexivity.
Qed.

End Paths.

(** ** Enumerated options *)

Section Enumerations.

Context {L : morfeusz.Library}.

(** [SetCharset] checks the ordinal itself: outside [UTF8 .. CP852] the
    call fails in Go, the shim is not entered and the instance is as
    before. *)
Lemma SetCharset_validated (m : Morfeusz) (encoding : Z) :
  ~ UTF8 <= encoding <= CP852 ->
  SetCharset m encoding = Defined (errInvalidCharset, m).
Proof.
  unfold SetCharset, UTF8, CP852, C.UTF8, C.CP852. intros H.
  destruct (Z.ltb_spec encoding 0); [reflexivity |].
  destruct (Z.gtb_spec encoding 3); [reflexivity | lia].
Qed.

(** Inside the range the table read of [setCharset] is defined. *)
Lemma SetCharset_in_range (m : Morfeusz) (encoding : Z) :
  UTF8 <= encoding <= CP852 ->
  exists r, SetCharset m encoding = Defined r.
Proof.
  unfold SetCharset, UTF8, CP852, C.UTF8, C.CP852. intros H.
  destruct (Z.ltb_spec encoding 0); [lia |].
  destruct (Z.gtb_spec encoding 3); [lia |]. cbn [orb].
  unfold C.setCharset.
  assert (Hcase : encoding = 0 \/ encoding = 1 \/ encoding = 2 \/ encoding = 3)
    by lia.
  destruct Hcase as [-> | [-> | [-> | ->]]]; cbn; eexists; reflexivity.
Qed.

(** [New] checks [Config.Usage] the same way. *)
Lemma New_usage_validated (c : Config.t) :
  ~ usage_in_range c ->
  New (Some c) = Defined (None, errInvalidUsage).
Proof.
  unfold usage_in_range, New, BothAnalyseAndGenerate, GenerateOnly,
    C.BOTH_ANALYSE_AND_GENERATE, C.GENERATE_ONLY. intros H.
  destruct (Z.ltb_spec (Config.Usage c) 0); [reflexivity |].
  destruct (Z.gtb_spec (Config.Usage c) 2); [reflexivity | lia].
Qed.

(** The other three setters hand any ordinal to the shim, which reads its
    table at that position. *)
Lemma SetCaseHandling_unchecked (m : Morfeusz) (v : Z) :
  ~ 0 <= v < 3 -> SetCaseHandling m v = OutOfBounds.
Proof.
  intros H. unfold SetCaseHandling, C.setCaseHandling.
  now rewrite index_outside.
Qed.

Lemma SetTokenNumbering_unchecked (m : Morfeusz) (v : Z) :
  ~ 0 <= v < 2 -> SetTokenNumbering m v = OutOfBounds.
Proof.
  intros H. unfold SetTokenNumbering, C.setTokenNumbering.
  now rewrite index_outside.
Qed.

Lemma SetWhitespaceHandling_unchecked (m : Morfeusz) (v : Z) :
  ~ 0 <= v < 3 -> SetWhitespaceHandling m v = OutOfBounds.
Proof.
  intros H. unfold SetWhitespaceHandling, C.setWhitespaceHandling.
  now rewrite index_outside.
Qed.

(** C1, at the inputs where the code departs from it.  [SetCaseHandling(3)],
    [SetTokenNumbering(2)] and [SetWhitespaceHandling(3)] are not rejected
    in Go: each reaches the shim, which reads its three- or two-entry
    translation table one past the end. *)
Theorem C1_unvalidated_setters_read_past_table (m : Morfeusz) :
  SetCaseHandling m 3 = OutOfBounds
  /\ SetTokenNumbering m 2 = OutOfBounds
  /\ SetWhitespaceHandling m 3 = OutOfBounds.
Proof.
  split; [| split].
  - apply SetCaseHandling_unchecked. lia.
  - apply SetTokenNumbering_unchecked. lia.
  - apply SetWhitespaceHandling_unchecked. lia.
Qed.

End Enumerations.

(** ** The id resolver *)

Lemma position_nth (s : string) (table : list string) (k : nat) :
  position s table = Some k -> nth_error table k = Some s.
Proof.
  revert k. induction table as [| x table IH]; intros k; simpl.
  - discriminate.
  - destruct (String.eqb_spec x s) as [-> | Hne].
    + intros [= <-]. reflexivity.
    + destruct (position s table) as [j |]; [| discriminate].
      intros [= <-]. simpl. now apply IH.
Qed.

Lemma position_In (s : string) (table : list string) :
  In s table -> exists k, position s table = Some k.
Proof.
  induction table as [| x table IH]; simpl; [contradiction |].
  intros H. destruct (String.eqb_spec x s) as [-> | Hne].
  - now exists O.
  - destruct H as [-> | H]; [congruence |].
    destruct (IH H) as [k ->]. now exists (S k).
Qed.

Lemma position_None (s : string) (table : list string) :
  ~ In s table -> position s table = None.
Proof.
  intros H. destruct (position s table) as [k |] eqn:E; [| reflexivity].
  exfalso. apply H. apply position_nth in E. eapply nth_error_In; eassumption.
Qed.

Lemma position_NoDup (table : list string) (k : nat) (s : string) :
  NoDup table -> nth_error table k = Some s -> position s table = Some k.
Proof.
  intros Hnd. revert k. induction Hnd as [| x table Hx Hnd IH]; intros k.
  - destruct k; discriminate.
  - destruct k as [| k]; simpl.
    + intros [= ->]. now rewrite String.eqb_refl.
    + intros Hk. destruct (String.eqb_spec x s) as [-> | Hne].
      * exfalso. apply Hx. eapply nth_error_In; eassumption.
      * now rewrite (IH k Hk).
Qed.

Section Resolver.

Context {L : morfeusz.Library}.

Variable byId : C.Morf -> Z -> Fallible string.
Variable byString : C.Morf -> string -> Fallible Z.
Variable count : C.Morf -> Z.
Variable m : C.Morf.
Variable table : list string.
Hypothesis contract : resolver_contract byId byString count m table.

(** The Go method resolving an id, and the one resolving a string, over
    the shim functions for this namespace. *)
Let resolve (id : Z) : string :=
  goStringFree (match byId m (C.int id) with
                | Returns s => C.makeString s
                | Throws _ => C.emptyString
                end).

Let resolveId (s : string) : Z :=
  go_int (match byString m (C.stdString (makeStructString s)) with
          | Returns i => i
          | Throws _ => C.invalidId
          end).

Lemma table_fits (k : nat) (s : string) : nth_error table k = Some s -> fits s.
Proof.
  destruct contract as (_ & _ & Hfits & _). intros H.
  rewrite Forall_forall in Hfits. apply Hfits.
  eapply nth_error_In; eassumption.
Qed.

Lemma resolve_at (k : nat) (s : string) :
  nth_error table k = Some s -> resolve (Z.of_nat k) = s.
Proof.
  intros Hk. pose proof (table_fits k s Hk) as Hs.
  destruct contract as (_ & Hlen & _ & Hid & _).
  assert (Hlt : (k < List.length table)%nat)
    by (apply nth_error_Some; congruence).
  unfold resolve, C.int, goStringFree.
  rewrite wrap_int_id by (unfold in_int, int_min, int_max; lia).
  specialize (Hid (Z.of_nat k)).
  destruct (Z.ltb_spec (Z.of_nat k) 0); [lia |].
  rewrite Nat2Z.id, Hk in Hid. rewrite Hid.
  now apply goString_makeString.
Qed.

Lemma resolve_invalid (id : Z) :
  in_int id -> ~ 0 <= id < count m -> resolve id = EmptyString.
Proof.
  intros Hint Hout. destruct contract as (Hcount & _ & _ & Hid & _).
  unfold resolve, C.int, goStringFree. rewrite wrap_int_id by exact Hint.
  specialize (Hid id). destruct (Z.ltb_spec id 0).
  - destruct Hid as [e ->]. reflexivity.
  - destruct (nth_error table (Z.to_nat id)) eqn:E.
    + exfalso. apply Hout. rewrite Hcount.
      assert ((Z.to_nat id < List.length table)%nat)
        by (apply nth_error_Some; congruence).
      lia.
    + destruct Hid as [e ->]. reflexivity.
Qed.

Lemma resolveId_at (s : string) (k : nat) :
  position s table = Some k -> resolveId s = Z.of_nat k.
Proof.
  intros Hk. pose proof (table_fits k s (position_nth _ _ _ Hk)) as Hs.
  destruct contract as (_ & _ & _ & _ & Hstr).
  unfold resolveId, go_int. rewrite (stdString_view s Hs).
  specialize (Hstr s). rewrite Hk in Hstr. now rewrite Hstr.
Qed.

Lemma resolveId_unknown (s : string) :
  fits s -> ~ In s table -> resolveId s = -1.
Proof.
  intros Hs Hout. destruct contract as (_ & _ & _ & _ & Hstr).
  unfold resolveId, go_int. rewrite (stdString_view s Hs).
  specialize (Hstr s). rewrite (position_None _ _ Hout) in Hstr.
  destruct Hstr as [e ->]. reflexivity.
Qed.

Lemma resolve_resolveId (s : string) :
  In s table -> resolve (resolveId s) = s.
Proof.
  intros Hin. destruct (position_In _ _ Hin) as [k Hk].
  rewrite (resolveId_at s k Hk).
  apply resolve_at. now apply position_nth.
Qed.

Lemma resolveId_resolve (i : Z) (s : string) :
  0 <= i < count m ->
  nth_error table (Z.to_nat i) = Some s ->
  (resolveId (resolve i) = i <-> position s table = Some (Z.to_nat i)).
Proof.
  intros Hi Hs.
  assert (E : resolve i = s).
  { rewrite <- (Z2Nat.id i) by lia. now apply resolve_at. }
  rewrite E. destruct (position_In s table) as [k Hk].
  { eapply nth_error_In; eassumption. }
  rewrite (resolveId_at s k Hk). rewrite Hk. split.
  - intros <-. now rewrite Nat2Z.id.
  - intros [= ->]. lia.
Qed.

End Resolver.

Section Tags.

Context {L : morfeusz.Library}.

Variable m : Morfeusz.
Variable table : list string.
Hypothesis tags_contract :
  resolver_contract morfeusz.getTag morfeusz.getTagId morfeusz.getTagsCount
    m table.


Lemma TagID_Tag (i : Z) :
  0 <= i < TagsCount m -> (TagID m (Tag m i) = i <-> canonical table i).
Proof.
  intros Hi. unfold TagsCount, C.tagsCount, go_int in Hi.
  destruct tags_contract as (Hcount & _).
  destruct (nth_error table (Z.to_nat i)) as [s |] eqn:Hs.
  - pose proof (resolveId_resolve _ _ _ m table tags_contract i s Hi Hs)
      as Hrt.
    unfold canonical. rewrite Hs. split.
    + intros H. exists s. split; [reflexivity | now apply Hrt].
    + intros (s' & [= <-] & Hpos). now apply Hrt.
  - exfalso. apply nth_error_None in Hs. lia.
Qed.

(** When no two ids share a string, every id in range is canonical. *)
Lemma TagID_Tag_NoDup (i : Z) :
  NoDup table -> 0 <= i < TagsCount m -> TagID m (Tag m i) = i.
Proof.
  intros Hnd Hi. apply TagID_Tag; [exact Hi |].
  unfold TagsCount, C.tagsCount, go_int in Hi.
  destruct tags_contract as (Hcount & _).
  destruct (nth_error table (Z.to_nat i)) as [s |] eqn:Hs.
  - exists s. split; [exact Hs | now apply position_NoDup].
  - exfalso. apply nth_error_None in Hs. lia.
Qed.


(** An id outside the table that is an [int] resolves to the empty
    string. *)
Lemma Tag_invalid (id : Z) :
  in_int id -> ~ 0 <= id < TagsCount m -> Tag m id = EmptyString.
Proof. exact (resolve_invalid _ _ _ m table tags_contract id). Qed.

(** A string that is not in the table resolves to -1. *)
Lemma TagID_unknown (t : string) :
  fits t -> ~ In t table -> TagID m t = -1.
Proof. exact (resolveId_unknown _ _ _ m table tags_contract t). Qed.

End Tags.

Section Names.

Context {L : morfeusz.Library}.

Variable m : Morfeusz.
Variable table : list string.
Hypothesis names_contract :
  resolver_contract morfeusz.getName morfeusz.getNameId
    morfeusz.getNamesCount m table.

Lemma Name_invalid (id : Z) :
  in_int id -> ~ 0 <= id < NamesCount m -> Name m id = EmptyString.
Proof. exact (resolve_invalid _ _ _ m table names_contract id). Qed.

Lemma NameID_unknown (s : string) :
  fits s -> ~ In s table -> NameID m s = -1.
Proof. exact (resolveId_unknown _ _ _ m table names_contract s). Qed.

End Names.

Section Labels.

Context {L : morfeusz.Library}.

Variable m : Morfeusz.
Variable table : list string.
Hypothesis labels_contract :
  resolver_contract morfeusz.getLabelsAsString morfeusz.getLabelsId
    morfeusz.getLabelsCount m table.

Lemma LabelsAsString_invalid (id : Z) :
  in_int id -> ~ 0 <= id < LabelsCount m -> LabelsAsString m id = EmptyString.
Proof. exact (resolve_invalid _ _ _ m table labels_contract id). Qed.

Lemma LabelsID_unknown (s : string) :
  fits s -> ~ In s table -> LabelsID m s = -1.
Proof. exact (resolveId_unknown _ _ _ m table labels_contract s). Qed.

End Labels.

Section Narrowing.

Context {L : morfeusz.Library}.

Lemma C_int_period (id : Z) : C.int (id + 2 ^ 32) = C.int id.
Proof. apply wrap_int_period. Qed.

(** C7, at the input where the code departs from it.  The id 4294967296
    is outside every table, yet [Tag], [Name] and [LabelsAsString] resolve
    it as they resolve the id 0: the conversion to a C [int] keeps the low
    32 bits only. *)
Theorem C7_wide_id_resolved_as_zero (m : Morfeusz) :
  Tag m 4294967296 = Tag m 0
  /\ Name m 4294967296 = Name m 0
  /\ LabelsAsString m 4294967296 = LabelsAsString m 0.
Proof.
  unfold Tag, Name, LabelsAsString.
  change 4294967296 with (0 + 2 ^ 32). rewrite C_int_period.
  repeat split.
Qed.

End Narrowing.

(** ** Errors across the boundary *)

Lemma substring_twice (k : nat) (s : string) :
  substring 0 k (substring 0 k s) = substring 0 k s.
Proof.
  revert s. induction k as [| k IH]; intros [| c s]; simpl;
    try reflexivity.
  now rewrite IH.
Qed.

(** An exception with a message becomes a Go error carrying it. *)
Lemma newError_makeError (e : exception) :
  has_message e -> newError (C.makeError e) = Some (message e).
Proof.
  unfold has_message. intros H.
  unfold newError, C.makeError, C.makeString_chars, goStringFree, goString,
    message.
  cbn [C.p C.n]. rewrite size_to_int_fits by lia.
  destruct (Z.eqb_spec (Z.of_nat (strlen (what e))) 0); [lia |].
  now rewrite Nat2Z.id, substring_twice.
Qed.

Lemma newError_noError : newError C.noError = None.
Proof. reflexivity. Qed.

(** An exception without a message leaves no trace of an error in Go. *)
Lemma newError_makeError_silent (e : exception) :
  strlen (what e) = O -> newError (C.makeError e) = None.
Proof.
  intros H. unfold newError, C.makeError, C.makeString_chars. cbn [C.n].
  now rewrite H.
Qed.

(** ** Generation *)

Lemma fromTokenInfoArray_exception (e : exception) :
  fromTokenInfoArray (C.makeTokenInfoArray_exception e)
  = Returned (None, newError (C.makeError e)).
Proof. reflexivity. Qed.



Section Generation.

Context {L : morfeusz.Library}.






End Generation.

(** ** The result cursor *)

Section Cursor.

Context {L : morfeusz.Library}.

Variable pending :
  morfeusz.ResultsIterator -> list morfeusz.MorphInterpretation.
Hypothesis contract : iterator_contract pending.

Lemma Next_pending (r : Result) :
  fst (Next r) = match pending r with [] => false | _ :: _ => true end
  /\ pending (snd (Next r)) = pending r.
Proof.
  destruct contract as (Hanswer & Hkeep & _).
  specialize (Hanswer r). specialize (Hkeep r).
  unfold Next, C.hasNext.
  destruct (morfeusz.hasNext r) as [b r']. cbn [fst snd] in *.
  split; [| exact Hkeep]. rewrite <- Hanswer. now destruct b.
Qed.

Lemma next_pending (r : Result) :
  match pending r with
  | [] => fst (C.next r) = C.emptyTokenInfo
  | mi :: _ => fst (C.next r) = C.makeTokenInfo mi
  end
  /\ pending (snd (C.next r)) = tl (pending r).
Proof.
  destruct contract as (_ & _ & Hsome & Hnone).
  unfold C.next. destruct (pending r) as [| mi rest] eqn:E.
  - destruct (Hnone r E) as [[e He] Hrest].
    destruct (morfeusz.next r) as [res r']. cbn [fst snd] in *.
    subst res. now split.
  - destruct (Hsome r mi rest E) as [Hres Hrest].
    destruct (morfeusz.next r) as [res r']. cbn [fst snd] in *.
    subst res. now split.
Qed.

Lemma TokenInfo_pending (r : Result) :
  fst (TokenInfo r) = delivered (pending r)
  /\ pending (snd (TokenInfo r)) = tl (pending r).
Proof.
  destruct (next_pending r) as [Hres Hrest]. unfold TokenInfo.
  destruct (C.next r) as [t r']. cbn [fst snd] in *.
  assert (Hsnd : forall a b : option C.TokenInfo,
             snd (if C.n (C.orth t) =? 0 then (a, r') else (b, r')) = r')
    by (intros; now destruct (C.n (C.orth t) =? 0)).
  rewrite Hsnd. split; [| exact Hrest].
  destruct (pending r) as [| mi rest]; subst t; cbn [delivered].
  - reflexivity.
  - now destruct (C.n (C.orth (C.makeTokenInfo mi)) =? 0).
Qed.


Lemma Next_times_pending (k : nat) (r : Result) :
  Forall (eq (fst (Next r))) (fst (Next_times k r))
  /\ List.length (fst (Next_times k r)) = k
  /\ pending (snd (Next_times k r)) = pending r.
Proof.
  revert r. induction k as [| k IH]; intros r; cbn [Next_times].
  - repeat split. constructor.
  - destruct (Next_pending r) as [Hb Hr].
    destruct (Next r) as [b r1] eqn:E1. cbn [fst snd] in *.
    destruct (IH r1) as (Hall & Hlen & Hpend).
    destruct (Next_pending r1) as [Hb1 _].
    destruct (Next_times k r1) as [bs r2]. cbn [fst snd] in *.
    repeat split.
    + constructor; [reflexivity |].
      assert (Hsame : fst (Next r1) = b) by (rewrite Hb1, Hr; now rewrite Hb).
      now rewrite Hsame in Hall.
    + cbn [List.length]. now f_equal.
    + now rewrite Hpend.
Qed.


(** C8.  [Next] can be called any number of times: every call gives the
    answer the first one gives, the cursor still has the same
    interpretations pending, and a following [TokenInfo] returns what it
    would have returned without those calls and leaves the cursor where it
    would have left it. *)
Theorem C8_Next_repeatable (k : nat) (r : Result) :
  let answers := fst (Next_times k r) in
  let r' := snd (Next_times k r) in
  List.length answers = k
  /\ Forall (eq (fst (Next r))) answers
  /\ pending r' = pending r
  /\ fst (TokenInfo r') = fst (TokenInfo r)
  /\ pending (snd (TokenInfo r')) = pending (snd (TokenInfo r)).
Proof.
  cbv zeta. destruct (Next_times_pending k r) as (Hall & Hlen & Hpend).
  destruct (TokenInfo_pending r) as [Ht Hr].
  destruct (TokenInfo_pending (snd (Next_times k r))) as [Ht' Hr'].
  repeat split; try assumption.
  - now rewrite Ht, Ht', Hpend.
  - now rewrite Hr, Hr', Hpend.
Qed.


End Cursor.

(** ** String settings *)

Section Settings.

Context {L : morfeusz.Library}.

Lemma asError_raised (e : exception) (m' : C.Morf) :
  has_message e ->
  asError (C.caught (Raised e m')) = (Some (message e), m').
Proof.
  intros H. unfold asError, C.caught. cbn [fst snd].
  now rewrite newError_makeError.
Qed.

Lemma asError_done (m' : C.Morf) : asError (C.caught (Done m')) = (None, m').
Proof. reflexivity. Qed.

(** C4.  When the library refuses a value, throwing an exception with a
    message and keeping the setting, [SetAggl], [SetPraet] and
    [SetDictionary] return a non-nil error whose text is that exception's
    message, and [Aggl()], [Praet()] and [DictID()] read what they read
    before.  When the library takes a value, they return nil and leave the
    instance as the library left it: [Aggl()] and [Praet()] then read the
    new value, and [DictID()] reads the id of the dictionary now loaded. *)
Theorem C4_string_setters (m : Morfeusz) (value : string) :
  fits value ->
  (forall e m',
      morfeusz.setAggl value m = Raised e m' -> has_message e ->
      morfeusz.getAggl m' = morfeusz.getAggl m ->
      SetAggl m value = (Some (message e), m')
      /\ Aggl (snd (SetAggl m value)) = Aggl m)
  /\ (forall m',
         morfeusz.setAggl value m = Done m' -> morfeusz.getAggl m' = value ->
         SetAggl m value = (None, m')
         /\ Aggl (snd (SetAggl m value)) = value)
  /\ (forall e m',
         morfeusz.setPraet value m = Raised e m' -> has_message e ->
         morfeusz.getPraet m' = morfeusz.getPraet m ->
         SetPraet m value = (Some (message e), m')
         /\ Praet (snd (SetPraet m value)) = Praet m)
  /\ (forall m',
         morfeusz.setPraet value m = Done m' -> morfeusz.getPraet m' = value ->
         SetPraet m value = (None, m')
         /\ Praet (snd (SetPraet m value)) = value)
  /\ (forall e m',
         morfeusz.setDictionary value m = Raised e m' -> has_message e ->
         morfeusz.getDictID m' = morfeusz.getDictID m ->
         SetDictionary m value = (Some (message e), m')
         /\ DictID (snd (SetDictionary m value)) = DictID m)
  /\ (forall m' id,
         morfeusz.setDictionary value m = Done m' ->
         morfeusz.getDictID m' = id -> fits id ->
         SetDictionary m value = (None, m')
         /\ DictID (snd (SetDictionary m value)) = id).
Proof.
  intros Hfits.
  unfold SetAggl, SetPraet, SetDictionary, C.setAggl, C.setPraet,
    C.setDictionary, Aggl, Praet, DictID, C.aggl, C.praet, C.dictId.
  rewrite (stdString_view value Hfits).
  repeat apply conj.
  - intros e m' Hset Hmsg Hsame. rewrite Hset.
    unfold asError, C.caught. cbn [fst snd].
    now rewrite (newError_makeError e Hmsg), Hsame.
  - intros m' Hset Hget. rewrite Hset.
    unfold asError, C.caught. cbn [fst snd].
    rewrite Hget. split; [reflexivity | now apply goString_makeString].
  - intros e m' Hset Hmsg Hsame. rewrite Hset.
    unfold asError, C.caught. cbn [fst snd].
    now rewrite (newError_makeError e Hmsg), Hsame.
  - intros m' Hset Hget. rewrite Hset.
    unfold asError, C.caught. cbn [fst snd].
    rewrite Hget. split; [reflexivity | now apply goString_makeString].
  - intros e m' Hset Hmsg Hsame. rewrite Hset.
    unfold asError, C.caught. cbn [fst snd].
    now rewrite (newError_makeError e Hmsg), Hsame.
  - intros m' id Hset Hget Hid. rewrite Hset.
    unfold asError, C.caught. cbn [fst snd].
    rewrite Hget. split; [reflexivity | now apply goString_makeString].
Qed.

End Settings.

(** ** [New] *)

Section Construction.

Context {L : morfeusz.Library}.

Lemma New_nil : New None = New (Some Config.zero).
Proof. reflexivity. Qed.

Lemma usage_check (c : Config.t) :
  usage_in_range c ->
  (Config.Usage c <? BothAnalyseAndGenerate) || (Config.Usage c >? GenerateOnly)
  = false.
Proof.
  unfold usage_in_range. intros H.
  destruct (Z.ltb_spec (Config.Usage c) BothAnalyseAndGenerate); [lia |].
  destruct (Z.gtb_spec (Config.Usage c) GenerateOnly); [lia | reflexivity].
Qed.

(** With the usage in range and the instance created, [New] is the loop
    over its configuration steps. *)
Lemma New_runSteps (c : Config.t) (m0 : C.Morf) :
  usage_in_range c -> loads c m0 ->
  New (Some c) = runSteps (configSteps c) m0.
Proof.
  intros Hu Hl. unfold New. rewrite (usage_check c Hu).
  unfold loads, created in Hl. rewrite Hl. reflexivity.
Qed.

Lemma New_fails_to_load (c : Config.t) :
  usage_in_range c -> fails_to_load c ->
  New (Some c) = Defined (None, errFailedToLoad (Config.DictName c)).
Proof.
  intros Hu Hl. unfold New. rewrite (usage_check c Hu).
  unfold fails_to_load, created in Hl. now rewrite Hl.
Qed.

Lemma runSteps_succeed (steps : list Step) (m m' : Morfeusz) :
  stepsSucceed steps m m' -> runSteps steps m = Defined (Some m', None).
Proof.
  induction 1 as [m | s rest m m1 m' Hs _ IH]; cbn [runSteps].
  - reflexivity.
  - rewrite Hs. exact IH.
Qed.

Lemma runSteps_fail (steps : list Step) (m : Morfeusz) (err : string) :
  stepFails steps m err -> runSteps steps m = Defined (None, Some err).
Proof.
  induction 1 as [s rest m err m1 Hs | s rest m m1 err Hs _ IH];
    cbn [runSteps]; rewrite Hs.
  - reflexivity.
  - exact IH.
Qed.

(** Every defined outcome of the loop is one of the two. *)
Lemma runSteps_outcome (steps : list Step) (m : Morfeusz)
    (res : option Morfeusz) (err : error) :
  runSteps steps m = Defined (res, err) ->
  (exists m', res = Some m' /\ err = None /\ stepsSucceed steps m m')
  \/ (exists e, res = None /\ err = Some e /\ stepFails steps m e).
Proof.
  revert m. induction steps as [| s rest IH]; intros m; cbn [runSteps].
  - intros [= <- <-]. left. exists m. repeat split. constructor.
  - destruct (s m) as [[[e |] m1] |] eqn:Hs; cbn [bind orReturn].
    + intros [= <- <-]. right. exists e. repeat split.
      eapply fails_here; exact Hs.
    + intros H. destruct (IH m1 H) as [(m' & -> & -> & Hok) | (e & -> & -> & Hf)].
      * left. exists m'. repeat split. eapply succeed_cons; eassumption.
      * right. exists e. repeat split. eapply fails_later; eassumption.
    + discriminate.
Qed.

(** C10.  Once the native instance exists, [New] returns nil together
    with the error of the first configuration step that fails, and it
    returns an instance only with a nil error and after every step has
    succeeded. *)
Theorem C10_New_all_or_nothing (c : Config.t) (m0 : C.Morf) :
  usage_in_range c ->
  loads c m0 ->
  (forall err, stepFails (configSteps c) m0 err ->
               New (Some c) = Defined (None, Some err))
  /\ (forall m err, New (Some c) = Defined (Some m, err) ->
                    err = None /\ stepsSucceed (configSteps c) m0 m).
Proof.
  intros Hu Hl. rewrite (New_runSteps c m0 Hu Hl). split.
  - intros err Hf. now apply runSteps_fail.
  - intros m err H.
    destruct (runSteps_outcome _ _ _ _ H)
      as [(m' & [= ->] & -> & Hok) | (e & [=] & _)].
    now split.
Qed.

(** C5, as amended.  [New] returns nil and a plain error when the usage
    is out of range, when the dictionary cannot be loaded, or when a
    configuration step fails (the error is then that step's), and in no
    other case; with the usage in range, the dictionary loaded and every
    configuration step succeeding it returns the instance and a nil
    error. *)
Theorem C5_New_failures (c : Config.t) :
  (~ usage_in_range c -> New (Some c) = Defined (None, errInvalidUsage))
  /\ (usage_in_range c -> fails_to_load c ->
      New (Some c) = Defined (None, errFailedToLoad (Config.DictName c)))
  /\ (forall m0 e, usage_in_range c -> loads c m0 ->
                   stepFails (configSteps c) m0 e ->
                   New (Some c) = Defined (None, Some e))
  /\ (forall m0 m, usage_in_range c -> loads c m0 ->
                   stepsSucceed (configSteps c) m0 m ->
                   New (Some c) = Defined (Some m, None))
  /\ (forall err, New (Some c) = Defined (None, err) ->
                  ~ usage_in_range c
                  \/ fails_to_load c
                  \/ exists m0 e, loads c m0 /\ err = Some e
                                  /\ stepFails (configSteps c) m0 e).
Proof.
  repeat apply conj.
  - apply New_usage_validated.
  - apply New_fails_to_load.
  - intros m0 e Hu Hl Hf. rewrite (New_runSteps c m0 Hu Hl).
    now apply runSteps_fail.
  - intros m0 m Hu Hl Hok. rewrite (New_runSteps c m0 Hu Hl).
    now apply runSteps_succeed.
  - intros err H.
    destruct (Z.le_gt_cases BothAnalyseAndGenerate (Config.Usage c)) as [Hlo |];
      [| left; unfold usage_in_range; lia].
    destruct (Z.le_gt_cases (Config.Usage c) GenerateOnly) as [Hhi |];
      [| left; unfold usage_in_range; lia].
    assert (Hu : usage_in_range c) by (split; assumption).
    right. destruct (created c) as [[m0 |] |] eqn:Hc.
    + right. rewrite (New_runSteps c m0 Hu Hc) in H.
      destruct (runSteps_outcome _ _ _ _ H)
        as [(m' & [=] & _) | (e & _ & -> & Hf)].
      exists m0, e. now repeat split.
    + now left.
    + exfalso. unfold New in H. rewrite (usage_check c Hu) in H.
      unfold created in Hc. rewrite Hc in H. discriminate.
Qed.

End Construction.

(** ** The small library meets the contracts *)

Lemma Toy_iterator : iterator_contract (L := Toy.library) Toy.pending.
Proof.
  unfold iterator_contract. cbn [morfeusz.hasNext morfeusz.next Toy.library].
  repeat apply conj.
  - intros [[| x b] [| y u]]; reflexivity.
  - intros [[| x b] [| y u]]; reflexivity.
  - intros [[| x b] [| y u]] mi rest; unfold Toy.pending; cbn;
      intros [= <- <-] || intros H; try discriminate; now split.
  - intros [[| x b] [| y u]]; unfold Toy.pending; cbn; intros H;
      try discriminate. split; [eexists |]; reflexivity.
Qed.

Lemma Toy_byId (table : list string) (i : Z) :
  match (if i <? 0 then None else nth_error table (Z.to_nat i)) with
  | Some s => Toy.byId table i = Returns s
  | None => exists e, Toy.byId table i = Throws e
  end.
Proof.
  unfold Toy.byId.
  destruct (if i <? 0 then None else nth_error table (Z.to_nat i));
    [reflexivity | eexists; reflexivity].
Qed.

Lemma Toy_byString (table : list string) (s : string) :
  match position s table with
  | Some k => Toy.byString table s = Returns (Z.of_nat k)
  | None => exists e, Toy.byString table s = Throws e
  end.
Proof.
  unfold Toy.byString.
  destruct (position s table); [reflexivity | eexists; reflexivity].
Qed.

Lemma Toy_fits (table : list string) :
  forallb (fun s => Z.of_nat (String.length s) <? 2 ^ 31) table = true ->
  Forall fits table.
Proof.
  rewrite forallb_forall, Forall_forall. intros H s Hs.
  unfold fits. apply Z.ltb_lt. now apply H.
Qed.

Lemma Toy_tags (m : Toy.Obj) :
  resolver_contract (L := Toy.library) morfeusz.getTag morfeusz.getTagId
    morfeusz.getTagsCount m Toy.tags.
Proof.
  repeat apply conj.
  - reflexivity.
  - reflexivity.
  - apply Toy_fits. reflexivity.
  - intros i. apply Toy_byId.
  - intros s. apply Toy_byString.
Qed.

Lemma Toy_names (m : Toy.Obj) :
  resolver_contract (L := Toy.library) morfeusz.getName morfeusz.getNameId
    morfeusz.getNamesCount m Toy.names.
Proof.
  repeat apply conj.
  - reflexivity.
  - reflexivity.
  - apply Toy_fits. reflexivity.
  - intros i. apply Toy_byId.
  - intros s. apply Toy_byString.
Qed.

Lemma Toy_has_message (e : exception) :
  (0 <? Z.of_nat (strlen (what e)))
  && (Z.of_nat (strlen (what e)) <? 2 ^ 31) = true ->
  has_message e.
Proof.
  intros H. apply andb_prop in H. destruct H as [H1 H2].
  apply Z.ltb_lt in H1. apply Z.ltb_lt in H2. now split.
Qed.


Lemma Toy_loads_badAggl : loads (L := Toy.library) Toy.badAggl Toy.both.
Proof. reflexivity. Qed.

Lemma Toy_usage_badAggl : usage_in_range Toy.badAggl.
Proof. split; discriminate. Qed.

Lemma Toy_New_badAggl :
  New (L := Toy.library) (Some Toy.badAggl)
  = Defined (None, Some "Invalid aggl option: xyz").
Proof. reflexivity. Qed.

(** The test of [New] with [Config{Aggl: "xyz"}]: [New] fails although the
    usage is in range and the dictionary is loaded. *)
Lemma Toy_stepFails_badAggl :
  stepFails (L := Toy.library) (configSteps Toy.badAggl) Toy.both
    "Invalid aggl option: xyz".
Proof. eapply fails_here. reflexivity. Qed.

(** [New(nil)] on the small library. *)
Lemma Toy_New_nil : New (L := Toy.library) None = Defined (Some Toy.both, None).
Proof. reflexivity. Qed.

Lemma Toy_stepsSucceed_zero :
  stepsSucceed (L := Toy.library) (configSteps Config.zero) Toy.both Toy.both.
Proof. repeat (eapply succeed_cons; [reflexivity |]). constructor. Qed.

(** Id 0 of the small library is the tag of unknown words, and the id
    4294967296 resolves to it. *)
Lemma Toy_Tag_wide : Tag (L := Toy.library) Toy.both 4294967296 = "ign".
Proof. reflexivity. Qed.

(** [New] with [Config{CaseHandling: 3}], as in the package's test. *)
Lemma Toy_New_bad_caseHandling :
  New (L := Toy.library)
    (Some {| Config.DictName := EmptyString; Config.DictNameNil := true;
     Config.Aggl := EmptyString;
             Config.Praet := EmptyString; Config.Charset := 0;
             Config.TokenNumbering := 0; Config.CaseHandling := 3;
             Config.WhitespaceHandling := 0; Config.Usage := 0 |})
  = OutOfBounds.
Proof. reflexivity. Qed.

(** The scenario of the package's test of the search path list. *)
Lemma Toy_search_path_scenario :
  let m1 := PrependToDictionarySearchPaths (L := Toy.library) Toy.both
              "first_path" in
  let m2 := PrependToDictionarySearchPaths (L := Toy.library) m1 "first_path" in
  let m3 := AppendToDictionarySearchPaths (L := Toy.library) m2 "last_path" in
  let r4 := RemoveFromDictionarySearchPaths (L := Toy.library) m3
              "first_path" in
  let r5 := RemoveFromDictionarySearchPaths (L := Toy.library) (snd r4) "xyz" in
  DictionarySearchPaths (L := Toy.library) m3
  = Returned [ "first_path"; "first_path";
               "/usr/share/morfeusz2/dictionaries"; "last_path" ]
  /\ fst r4 = 2
  /\ DictionarySearchPaths (L := Toy.library) (snd r4)
     = Returned [ "/usr/share/morfeusz2/dictionaries"; "last_path" ]
  /\ r5 = (0, snd r4)
  /\ DictionarySearchPaths (L := Toy.library)
       (ClearDictionarySearchPaths (L := Toy.library) (snd r5)) = Returned [].
Proof. repeat split. Qed.

(** ** The statements at concrete inputs *)

Lemma C9_search_path_list_witness :
  fits "first_path"
  /\ Z.of_nat (List.length (morfeusz.dictionarySearchPaths Toy.both)) < 2 ^ 31
  /\ morfeusz.dictionarySearchPaths
       (PrependToDictionarySearchPaths (L := Toy.library) Toy.both "first_path")
     = "first_path" :: morfeusz.dictionarySearchPaths Toy.both.
Proof.
  assert (H1 : fits "first_path") by (unfold fits; simpl; lia).
  assert (H2 : Z.of_nat (List.length (morfeusz.dictionarySearchPaths Toy.both))
               < 2 ^ 31) by (simpl; lia).
  split; [exact H1 | split; [exact H2 |]].
  exact (proj1 (C9_search_path_list (L := Toy.library) Toy.both "first_path"
                  H1 H2)).
Defined.




Lemma C8_Next_repeatable_witness :
  iterator_contract (L := Toy.library) Toy.pending
  /\ Toy.pending (snd (Next_times (L := Toy.library) 3
                         {| Toy.buffer := []; Toy.unread := Toy.forms |}))
     = Toy.forms.
Proof.
  split; [exact Toy_iterator |].
  exact (proj1 (proj2 (proj2
           (C8_Next_repeatable (L := Toy.library) Toy.pending Toy_iterator 3
              {| Toy.buffer := []; Toy.unread := Toy.forms |})))).
Defined.


Lemma C4_string_setters_witness :
  fits "xyz"
  /\ has_message {| what := "Invalid aggl option: xyz" |}
  /\ SetAggl (L := Toy.library) Toy.both "xyz"
     = (Some (message {| what := "Invalid aggl option: xyz" |}), Toy.both)
  /\ Aggl (L := Toy.library) (snd (SetAggl (L := Toy.library) Toy.both "xyz"))
     = Aggl (L := Toy.library) Toy.both.
Proof.
  assert (H : fits "xyz") by (unfold fits; simpl; lia).
  assert (Hm : has_message {| what := "Invalid aggl option: xyz" |})
    by (apply Toy_has_message; reflexivity).
  split; [exact H | split; [exact Hm |]].
  exact (proj1 (C4_string_setters (L := Toy.library) Toy.both "xyz" H)
           {| what := "Invalid aggl option: xyz" |} Toy.both
           eq_refl Hm eq_refl).
Defined.

Lemma C10_New_all_or_nothing_witness :
  usage_in_range Toy.badAggl
  /\ loads (L := Toy.library) Toy.badAggl Toy.both
  /\ New (L := Toy.library) (Some Toy.badAggl)
     = Defined (None, Some "Invalid aggl option: xyz").
Proof.
  split; [exact Toy_usage_badAggl | split; [exact Toy_loads_badAggl |]].
  exact (proj1 (C10_New_all_or_nothing (L := Toy.library) Toy.badAggl Toy.both
                  Toy_usage_badAggl Toy_loads_badAggl)
           _ Toy_stepFails_badAggl).
Defined.

Lemma C5_New_failures_witness :
  usage_in_range Config.zero
  /\ loads (L := Toy.library) Config.zero Toy.both
  /\ New (L := Toy.library) (Some Config.zero) = Defined (Some Toy.both, None).
Proof.
  assert (Hu : usage_in_range Config.zero) by (split; discriminate).
  split; [exact Hu | split; [reflexivity |]].
  exact (proj1 (proj2 (proj2 (proj2
           (C5_New_failures (L := Toy.library) Config.zero))))
           Toy.both Toy.both Hu eq_refl Toy_stepsSucceed_zero).
Defined.

(** C5 as stated fails on [Config{Aggl: "xyz"}]: the usage is in range and
    the dictionary is loaded, yet [New] returns no instance. *)
Lemma C5_counterexample :
  ~ (usage_in_range Toy.badAggl ->
     loads (L := Toy.library) Toy.badAggl Toy.both ->
     exists m, New (L := Toy.library) (Some Toy.badAggl) = Defined (Some m, None)).
Proof.
  intros H.
  destruct (H Toy_usage_badAggl Toy_loads_badAggl) as [m Hm].
  rewrite Toy_New_badAggl in Hm. discriminate.
Qed.

(** * More of the shim and of the package *)

(** ** Reverse translation of enumerations *)

Lemma enum_cast_id (i : Z) : 0 <= i < 2 ^ 32 -> C.enum_cast i = i.
Proof. intros H. unfold C.enum_cast. now apply Z.mod_small. Qed.

Section ReverseTranslate.

Variable T : Type.
Variable eqb : T -> T -> bool.
Hypothesis eqb_eq : forall a b, eqb a b = true <-> a = b.

Lemma reverseTranslate_from_spec (array : list T) (value : T) (i : Z) :
  (exists k, nth_error array k = Some value
             /\ (forall j, (j < k)%nat -> nth_error array j <> Some value)
             /\ C.reverseTranslate_from eqb array value i
                = C.enum_cast (i + Z.of_nat k))
  \/ (~ In value array
      /\ C.reverseTranslate_from eqb array value i
         = C.enum_cast C.invalidId).
Proof.
  revert i. induction array as [| x array IH]; intros i;
    cbn [C.reverseTranslate_from].
  - right. split; [intros [] | reflexivity].
  - destruct (eqb x value) eqn:E.
    + left. exists O. apply eqb_eq in E. subst x. repeat split.
      * intros j Hj. lia.
      * f_equal. lia.
    + assert (Hne : x <> value).
      { intros ->. assert (Ht : eqb value value = true) by now apply eqb_eq.
        congruence. }
      destruct (IH (i + 1)) as [(k & Hk & Hfirst & Hres) | (Hout & Hres)].
      * left. exists (S k). repeat split.
        -- exact Hk.
        -- intros [| j] Hj; cbn [nth_error].
           ++ congruence.
           ++ apply Hfirst. lia.
        -- rewrite Hres. f_equal. lia.
      * right. split; [| exact Hres].
        intros [Hx | Hin]; [congruence | contradiction].
Qed.

(** X1.  [reverseTranslate] returns the position of the first entry of the
    array equal to the value, and 4294967295 (the invalid id -1 as an
    enumeration value) when the array has no such entry. *)
Theorem X1_reverseTranslate_first_position (array : list T) (value : T) :
  Z.of_nat (List.length array) <= 2 ^ 32 ->
  (In value array ->
     exists k, C.reverseTranslate eqb array value = Z.of_nat k
               /\ nth_error array k = Some value
               /\ forall j, (j < k)%nat -> nth_error array j <> Some value)
  /\ (~ In value array ->
      C.reverseTranslate eqb array value = 4294967295).
Proof.
  intros Hlen. unfold C.reverseTranslate.
  destruct (reverseTranslate_from_spec array value 0)
    as [(k & Hk & Hfirst & Hres) | (Hout & Hres)].
  - split.
    + intros _. exists k. repeat split; try assumption.
      rewrite Hres. apply enum_cast_id.
      assert ((k < List.length array)%nat)
        by (apply nth_error_Some; congruence).
      lia.
    + intros Hout. exfalso. apply Hout. eapply nth_error_In; eassumption.
  - split; [contradiction | intros _; now rewrite Hres].
Qed.

End ReverseTranslate.

Lemma Charset_eqb_eq (a b : morfeusz.Charset) :
  morfeusz.Charset_eqb a b = true <-> a = b.
Proof. destruct a, b; cbn; split; intros H; congruence. Qed.

Lemma X1_reverseTranslate_first_position_witness :
  Z.of_nat (List.length C.translateCharset) <= 2 ^ 32
  /\ exists k,
      C.reverseTranslate morfeusz.Charset_eqb C.translateCharset morfeusz.CP1250
      = Z.of_nat k
      /\ nth_error C.translateCharset k = Some morfeusz.CP1250
      /\ forall j, (j < k)%nat ->
                   nth_error C.translateCharset j <> Some morfeusz.CP1250.
Proof.
  assert (H : Z.of_nat (List.length C.translateCharset) <= 2 ^ 32)
    by (simpl; lia).
  split; [exact H |].
  apply (proj1 (X1_reverseTranslate_first_position morfeusz.Charset
                  morfeusz.Charset_eqb Charset_eqb_eq C.translateCharset
                  morfeusz.CP1250 H)).
  simpl. tauto.
Defined.

(** Each table sends distinct ordinals to distinct values, so the getter's
    table search undoes the setter's table read. *)
Lemma reverse_translateCharset (i : Z) (v : morfeusz.Charset) :
  index C.translateCharset i = Defined v ->
  C.reverseTranslate morfeusz.Charset_eqb C.translateCharset v = i.
Proof.
  intros H. pose proof (index_inside _ _ _ H) as Hi. cbn in Hi.
  assert (Hc : i = 0 \/ i = 1 \/ i = 2 \/ i = 3) by lia.
  destruct Hc as [-> | [-> | [-> | ->]]]; cbn in H; injection H as <-;
    reflexivity.
Qed.

Lemma reverse_translateCaseHandling (i : Z) (v : morfeusz.CaseHandling) :
  index C.translateCaseHandling i = Defined v ->
  C.reverseTranslate morfeusz.CaseHandling_eqb C.translateCaseHandling v = i.
Proof.
  intros H. pose proof (index_inside _ _ _ H) as Hi. cbn in Hi.
  assert (Hc : i = 0 \/ i = 1 \/ i = 2) by lia.
  destruct Hc as [-> | [-> | ->]]; cbn in H; injection H as <-; reflexivity.
Qed.

Lemma reverse_translateTokenNumbering (i : Z) (v : morfeusz.TokenNumbering) :
  index C.translateTokenNumbering i = Defined v ->
  C.reverseTranslate morfeusz.TokenNumbering_eqb C.translateTokenNumbering v
  = i.
Proof.
  intros H. pose proof (index_inside _ _ _ H) as Hi. cbn in Hi.
  assert (Hc : i = 0 \/ i = 1) by lia.
  destruct Hc as [-> | ->]; cbn in H; injection H as <-; reflexivity.
Qed.

Lemma reverse_translateWhitespaceHandling (i : Z)
    (v : morfeusz.WhitespaceHandling) :
  index C.translateWhitespaceHandling i = Defined v ->
  C.reverseTranslate morfeusz.WhitespaceHandling_eqb
    C.translateWhitespaceHandling v = i.
Proof.
  intros H. pose proof (index_inside _ _ _ H) as Hi. cbn in Hi.
  assert (Hc : i = 0 \/ i = 1 \/ i = 2) by lia.
  destruct Hc as [-> | [-> | ->]]; cbn in H; injection H as <-; reflexivity.
Qed.

Section EnumRoundTrip.

Context {L : morfeusz.Library}.

(** X2.  An ordinal inside its table that the library takes is read back
    by the getter: after [SetCharset(v)] returns nil, [Charset()] is [v],
    and likewise for case handling, token numbering and whitespace
    handling. *)
Theorem X2_enum_setter_getter_round_trip (m : Morfeusz) (v : Z) :
  (forall nv, index C.translateCharset v = Defined nv ->
              stores morfeusz.setCharset morfeusz.getCharset nv m ->
              exists m', SetCharset m v = Defined (None, m')
                         /\ Charset m' = v)
  /\ (forall nv, index C.translateCaseHandling v = Defined nv ->
                 stores morfeusz.setCaseHandling morfeusz.getCaseHandling nv m ->
                 exists m', SetCaseHandling m v = Defined (None, m')
                            /\ CaseHandling m' = v)
  /\ (forall nv, index C.translateTokenNumbering v = Defined nv ->
                 stores morfeusz.setTokenNumbering morfeusz.getTokenNumbering
                   nv m ->
                 exists m', SetTokenNumbering m v = Defined (None, m')
                            /\ TokenNumbering m' = v)
  /\ (forall nv, index C.translateWhitespaceHandling v = Defined nv ->
                 stores morfeusz.setWhitespaceHandling
                   morfeusz.getWhitespaceHandling nv m ->
                 exists m', SetWhitespaceHandling m v = Defined (None, m')
                            /\ WhitespaceHandling m' = v).
Proof.
  repeat apply conj.
  - intros nv Hnv (m' & Hset & Hget). exists m'.
    pose proof (index_inside _ _ _ Hnv) as Hi. cbn in Hi.
    unfold SetCharset, UTF8, CP852, C.UTF8, C.CP852.
    destruct (Z.ltb_spec v 0); [lia |].
    destruct (Z.gtb_spec v 3); [lia |]. cbn [orb].
    unfold C.setCharset. rewrite Hnv. cbn [bind]. rewrite Hset. split.
    + reflexivity.
    + unfold Charset, C.charset. rewrite Hget.
      now apply reverse_translateCharset.
  - intros nv Hnv (m' & Hset & Hget). exists m'.
    unfold SetCaseHandling, C.setCaseHandling. rewrite Hnv. cbn [bind].
    rewrite Hset. split; [reflexivity |].
    unfold CaseHandling, C.caseHandling. rewrite Hget.
    now apply reverse_translateCaseHandling.
  - intros nv Hnv (m' & Hset & Hget). exists m'.
    unfold SetTokenNumbering, C.setTokenNumbering. rewrite Hnv. cbn [bind].
    rewrite Hset. split; [reflexivity |].
    unfold TokenNumbering, C.tokenNumbering. rewrite Hget.
    now apply reverse_translateTokenNumbering.
  - intros nv Hnv (m' & Hset & Hget). exists m'.
    unfold SetWhitespaceHandling, C.setWhitespaceHandling. rewrite Hnv.
    cbn [bind]. rewrite Hset. split; [reflexivity |].
    unfold WhitespaceHandling, C.whitespaceHandling. rewrite Hget.
    now apply reverse_translateWhitespaceHandling.
Qed.

End EnumRoundTrip.

Lemma Toy_stores_charset :
  stores (L := Toy.library) morfeusz.setCharset morfeusz.getCharset
    morfeusz.CP852 Toy.both.
Proof. eexists. split; reflexivity. Qed.

Lemma X2_enum_setter_getter_round_trip_witness :
  index C.translateCharset CP852 = Defined morfeusz.CP852
  /\ stores (L := Toy.library) morfeusz.setCharset morfeusz.getCharset
       morfeusz.CP852 Toy.both
  /\ exists m', SetCharset (L := Toy.library) Toy.both CP852
                = Defined (None, m')
                /\ Charset (L := Toy.library) m' = CP852.
Proof.
  split; [reflexivity | split; [exact Toy_stores_charset |]].
  exact (proj1 (X2_enum_setter_getter_round_trip (L := Toy.library) Toy.both
                  CP852)
           morfeusz.CP852 eq_refl Toy_stores_charset).
Defined.

(** ** Arrays of strings *)

Lemma fromStringArray_makeStringArray (lst : list string) :
  crosses lst ->
  fromStringArray (C.makeStringArray lst) = Returned lst.
Proof.
  intros [Hfits Hlen].
  unfold fromStringArray, C.makeStringArray, sliceView.
  cbn [C.strings C.strings_length].
  rewrite size_to_int_fits by lia.
  destruct (Z.ltb_spec (Z.of_nat (List.length lst)) 0); [lia |].
  destruct (Z.gtb_spec (Z.of_nat (List.length lst)) (2 ^ 28)); [lia |].
  cbn [orb]. rewrite Nat2Z.id.
  rewrite <- (length_map C.makeString), firstn_all, map_map.
  f_equal. rewrite <- (map_id lst) at 2.
  apply map_ext_in. intros s Hs. apply goString_makeString.
  rewrite Forall_forall in Hfits. now apply Hfits.
Qed.

(** More strings than the array type that Go slices through has
    elements. *)
Lemma fromStringArray_too_long (lst : list string) :
  2 ^ 28 < Z.of_nat (List.length lst) < 2 ^ 31 ->
  fromStringArray (C.makeStringArray lst) = Panics.
Proof.
  intros Hlen. unfold fromStringArray, C.makeStringArray, sliceView.
  cbn [C.strings C.strings_length].
  rewrite size_to_int_fits by lia.
  destruct (Z.ltb_spec (Z.of_nat (List.length lst)) 0); [lia |].
  destruct (Z.gtb_spec (Z.of_nat (List.length lst)) (2 ^ 28)); [| lia].
  reflexivity.
Qed.

Lemma crosses_check (lst : list string) :
  forallb (fun s => Z.of_nat (String.length s) <? 2 ^ 31) lst = true ->
  (Z.of_nat (List.length lst) <=? 2 ^ 28) = true ->
  crosses lst.
Proof.
  intros H1 H2. split; [now apply Toy_fits | now apply Z.leb_le].
Qed.

Section StringLists.

Context {L : morfeusz.Library}.

(** X3.  [DictionarySearchPaths], [AvailableAgglOptions] and
    [AvailablePraetOptions] return the library's list, the same strings in
    the same order, when it has at most 2^28 strings; with more strings
    (fewer than 2^31) they panic. *)
Theorem X3_list_getters_return_library_lists (m : Morfeusz) :
  ((crosses (morfeusz.dictionarySearchPaths m) ->
      DictionarySearchPaths m = Returned (morfeusz.dictionarySearchPaths m))
   /\ (crosses (morfeusz.getAvailableAgglOptions m) ->
       AvailableAgglOptions m = Returned (morfeusz.getAvailableAgglOptions m))
   /\ (crosses (morfeusz.getAvailablePraetOptions m) ->
       AvailablePraetOptions m
       = Returned (morfeusz.getAvailablePraetOptions m)))
  /\ ((2 ^ 28 < Z.of_nat (List.length (morfeusz.dictionarySearchPaths m))
         < 2 ^ 31 ->
       DictionarySearchPaths m = Panics)
      /\ (2 ^ 28 < Z.of_nat (List.length (morfeusz.getAvailableAgglOptions m))
            < 2 ^ 31 ->
          AvailableAgglOptions m = Panics)
      /\ (2 ^ 28 < Z.of_nat (List.length (morfeusz.getAvailablePraetOptions m))
            < 2 ^ 31 ->
          AvailablePraetOptions m = Panics)).
Proof.
  split; repeat apply conj; intros H;
    (now apply fromStringArray_makeStringArray)
    || (now apply fromStringArray_too_long).
Qed.

(** X4.  [Labels] returns the library's list of labels for the id (taken
    as a C int) when it has at most 2^28 labels.  When the library throws,
    as it does for an invalid id, the shim returns a null array and
    [Labels] panics slicing it. *)
Theorem X4_Labels_list_or_panic (m : Morfeusz) (labelsID : Z) :
  (forall lst, morfeusz.getLabels m (C.int labelsID) = Returns lst ->
               crosses lst -> Labels m labelsID = Returned lst)
  /\ (forall e, morfeusz.getLabels m (C.int labelsID) = Throws e ->
                Labels m labelsID = Panics).
Proof.
  unfold Labels, C.labels. split.
  - intros lst H Hc. rewrite H.
    now apply fromStringArray_makeStringArray.
  - intros e H. now rewrite H.
Qed.

End StringLists.

Lemma X3_list_getters_return_library_lists_witness :
  crosses (@morfeusz.getAvailableAgglOptions Toy.library Toy.both)
  /\ AvailableAgglOptions (L := Toy.library) Toy.both
     = Returned [ "strict"; "permissive"; "isolated" ].
Proof.
  assert (H : crosses
                (@morfeusz.getAvailableAgglOptions Toy.library Toy.both))
    by (apply crosses_check; reflexivity).
  split; [exact H |].
  exact (proj1 (proj2 (proj1 (X3_list_getters_return_library_lists
                                (L := Toy.library) Toy.both))) H).
Defined.

Lemma X4_Labels_list_or_panic_witness :
  (@morfeusz.getLabels Toy.library Toy.both (C.int 1) = Returns [ "bot." ]
   /\ crosses [ "bot." ]
   /\ Labels (L := Toy.library) Toy.both 1 = Returned [ "bot." ])
  /\ (@morfeusz.getLabels Toy.library Toy.both (C.int (-1))
      = Throws {| what := "Invalid id" |}
      /\ Labels (L := Toy.library) Toy.both (-1) = Panics).
Proof.
  assert (H : crosses [ "bot." ]) by (apply crosses_check; reflexivity).
  split; [split; [reflexivity | split; [exact H |]] | split; [reflexivity |]].
  - exact (proj1 (X4_Labels_list_or_panic (L := Toy.library) Toy.both 1)
             [ "bot." ] eq_refl H).
  - exact (proj2 (X4_Labels_list_or_panic (L := Toy.library) Toy.both (-1))
             {| what := "Invalid id" |} eq_refl).
Defined.

(** ** Tokens *)

Section Tokens.

Context {L : morfeusz.Library}.

(** X5.  The accessors of a token read back the interpretation it was
    made from: its spelling, lemma and nodes; [IsIgn] tells tag id 0 and
    [IsWhitespace] tag id 1. *)
Theorem X5_token_accessors (mi : morfeusz.MorphInterpretation) :
  fits (morfeusz.orth mi) ->
  fits (morfeusz.lemma mi) ->
  Orth (C.makeTokenInfo mi) = morfeusz.orth mi
  /\ Lemma_ (C.makeTokenInfo mi) = morfeusz.lemma mi
  /\ StartNode (C.makeTokenInfo mi) = morfeusz.startNode mi
  /\ EndNode (C.makeTokenInfo mi) = morfeusz.endNode mi
  /\ (IsIgn (C.makeTokenInfo mi) = true <-> morfeusz.tagId mi = 0)
  /\ (IsWhitespace (C.makeTokenInfo mi) = true <-> morfeusz.tagId mi = 1).
Proof.
  intros Ho Hl. unfold Orth, Lemma_, StartNode, EndNode, IsIgn, IsWhitespace,
    go_int, C.makeTokenInfo.
  cbn [C.orth C.lemma C.startNode C.endNode C.tagID].
  rewrite (goString_makeString _ Ho), (goString_makeString _ Hl).
  repeat split; try apply Z.eqb_eq.
Qed.

(** X6.  A token's [Tag], [Name] and [LabelsAsString] resolve the ids of
    the interpretation it was made from, and return the strings the
    dictionary's tables hold for them. *)
Theorem X6_token_resolves_its_ids (m : Morfeusz)
    (mi : morfeusz.MorphInterpretation) (tags names labels : list string) :
  resolver_contract morfeusz.getTag morfeusz.getTagId morfeusz.getTagsCount
    m tags ->
  resolver_contract morfeusz.getName morfeusz.getNameId morfeusz.getNamesCount
    m names ->
  resolver_contract morfeusz.getLabelsAsString morfeusz.getLabelsId
    morfeusz.getLabelsCount m labels ->
  forall kt kn kl st sn sl,
    morfeusz.tagId mi = Z.of_nat kt -> nth_error tags kt = Some st ->
    morfeusz.nameId mi = Z.of_nat kn -> nth_error names kn = Some sn ->
    morfeusz.labelsId mi = Z.of_nat kl -> nth_error labels kl = Some sl ->
    TokenInfo_Tag (C.makeTokenInfo mi) m = st
    /\ TokenInfo_Name (C.makeTokenInfo mi) m = sn
    /\ TokenInfo_LabelsAsString (C.makeTokenInfo mi) m = sl.
Proof.
  intros Ht Hn Hl kt kn kl st sn sl Et Est En Esn El Esl.
  unfold TokenInfo_Tag, TokenInfo_Name, TokenInfo_LabelsAsString, go_int,
    C.makeTokenInfo.
  cbn [C.tagID C.nameID C.labelsID]. rewrite Et, En, El.
  repeat split.
  - exact (resolve_at _ _ _ m tags Ht kt st Est).
  - exact (resolve_at _ _ _ m names Hn kn sn Esn).
  - exact (resolve_at _ _ _ m labels Hl kl sl Esl).
Qed.

End Tokens.

Lemma X5_token_accessors_witness :
  fits "bzu" /\ fits "bez:S"
  /\ Orth (C.makeTokenInfo (Toy.interp "bzu" "bez:S" 3 1 1)) = "bzu".
Proof.
  assert (Ho : fits "bzu") by (unfold fits; simpl; lia).
  assert (Hl : fits "bez:S") by (unfold fits; simpl; lia).
  split; [exact Ho | split; [exact Hl |]].
  exact (proj1 (X5_token_accessors (Toy.interp "bzu" "bez:S" 3 1 1) Ho Hl)).
Defined.

Lemma Toy_labels (m : Toy.Obj) :
  resolver_contract (L := Toy.library) morfeusz.getLabelsAsString
    morfeusz.getLabelsId morfeusz.getLabelsCount m Toy.labelSets.
Proof.
  repeat apply conj.
  - reflexivity.
  - reflexivity.
  - apply Toy_fits. reflexivity.
  - intros i. apply Toy_byId.
  - intros s. apply Toy_byString.
Qed.

Lemma X6_token_resolves_its_ids_witness :
  TokenInfo_Tag (L := Toy.library)
    (C.makeTokenInfo (Toy.interp "bzu" "bez:S" 3 1 1)) Toy.both
  = "subst:sg:gen:m3"
  /\ TokenInfo_Name (L := Toy.library)
       (C.makeTokenInfo (Toy.interp "bzu" "bez:S" 3 1 1)) Toy.both
     = "nazwa_pospolita"
  /\ TokenInfo_LabelsAsString (L := Toy.library)
       (C.makeTokenInfo (Toy.interp "bzu" "bez:S" 3 1 1)) Toy.both
     = "bot.".
Proof.
  exact (X6_token_resolves_its_ids (L := Toy.library) Toy.both
           (Toy.interp "bzu" "bez:S" 3 1 1) Toy.tags Toy.names Toy.labelSets
           (Toy_tags Toy.both) (Toy_names Toy.both) (Toy_labels Toy.both)
           3%nat 1%nat 1%nat _ _ _
           eq_refl eq_refl eq_refl eq_refl eq_refl eq_refl).
Defined.

(** ** Generated forms *)

Section Forms.

Context {L : morfeusz.Library}.


Lemma C_int_periodic (id k : Z) : C.int (id + k * 2 ^ 32) = C.int id.
Proof.
  unfold C.int, wrap_int.
  replace (id + k * 2 ^ 32 + 2 ^ 31) with (id + 2 ^ 31 + k * 2 ^ 32) by lia.
  now rewrite Z.mod_add by lia.
Qed.

(** X8.  [GenerateWithTagID] and [Labels] look at the low 32 bits of the
    id only: adding a multiple of 2^32 to it changes nothing. *)
Theorem X8_id_taken_modulo_2_32 (m : Morfeusz) (id k : Z) (lemma : string) :
  GenerateWithTagID m (id + k * 2 ^ 32) lemma = GenerateWithTagID m id lemma
  /\ Labels m (id + k * 2 ^ 32) = Labels m id.
Proof.
  unfold GenerateWithTagID, Labels. now rewrite C_int_periodic.
Qed.

End Forms.


(** X9.  An exception whose [what()] is empty leaves no error behind: the
    array built for it becomes nil items with a nil error, and a setter's
    result a nil error. *)
Theorem X9_empty_message_is_no_error (e : exception) :
  strlen (what e) = O ->
  fromTokenInfoArray (C.makeTokenInfoArray_exception e)
  = Returned (None, None)
  /\ newError (C.makeError e) = None.
Proof.
  intros H. rewrite fromTokenInfoArray_exception.
  now rewrite (newError_makeError_silent e H).
Qed.

Lemma X9_empty_message_is_no_error_witness :
  strlen (what {| what := EmptyString |}) = O
  /\ fromTokenInfoArray
       (C.makeTokenInfoArray_exception {| what := EmptyString |})
     = Returned (None, None).
Proof.
  split; [reflexivity |].
  exact (proj1 (X9_empty_message_is_no_error {| what := EmptyString |}
                  eq_refl)).
Defined.

(** ** Analysis *)

Section Analysis.

Context {L : morfeusz.Library}.

Variable pending :
  morfeusz.ResultsIterator -> list morfeusz.MorphInterpretation.
Hypothesis contract : iterator_contract pending.


End Analysis.


(** ** The search path list, operations combined *)

Lemma list_remove_cons_same (p : string) (l : list string) :
  C.list_remove p (p :: l) = C.list_remove p l.
Proof. unfold C.list_remove. cbn [filter]. now rewrite String.eqb_refl. Qed.

Lemma list_remove_app_same (p : string) (l : list string) :
  C.list_remove p (l ++ [p]) = C.list_remove p l.
Proof.
  unfold C.list_remove. rewrite filter_app. cbn [filter].
  rewrite String.eqb_refl. cbn [negb]. apply app_nil_r.
Qed.

Lemma list_remove_twice (p : string) (l : list string) :
  C.list_remove p (C.list_remove p l) = C.list_remove p l.
Proof. apply list_remove_absent, list_remove_gone. Qed.

Lemma list_remove_other (p q : string) (l : list string) :
  q <> p ->
  count_occ string_dec (C.list_remove p l) q = count_occ string_dec l q.
Proof.
  intros Hne. induction l as [| x l IH]; [reflexivity |].
  unfold C.list_remove in *. cbn [filter].
  destruct (String.eqb_spec x p) as [-> | Hx]; cbn [negb count_occ].
  - destruct (string_dec p q); [congruence | exact IH].
  - destruct (string_dec x q); now rewrite IH.
Qed.

Section PathsCombined.

Context {L : morfeusz.Library}.

(** The count that [removeFromDictionarySearchPaths] returns, for a list
    an [int] can count. *)
Lemma removed_count (p : string) (l : list string) :
  Z.of_nat (List.length l) < 2 ^ 31 ->
  wrap_int (Z.of_nat (List.length l)
            - Z.of_nat (List.length (C.list_remove p l)))
  = Z.of_nat (count_occ string_dec l p).
Proof.
  intros Hlen. pose proof (list_remove_length p l) as Hcount.
  rewrite wrap_int_id; unfold in_int, int_min, int_max; lia.
Qed.

Lemma Remove_unfolded (m : Morfeusz) (p : string) :
  fits p ->
  Z.of_nat (List.length (morfeusz.dictionarySearchPaths m)) < 2 ^ 31 ->
  RemoveFromDictionarySearchPaths m p
  = (Z.of_nat (count_occ string_dec (morfeusz.dictionarySearchPaths m) p),
     C.with_paths m (C.list_remove p (morfeusz.dictionarySearchPaths m))).
Proof.
  intros Hp Hlen.
  unfold RemoveFromDictionarySearchPaths, C.removeFromDictionarySearchPaths,
    go_int.
  rewrite (stdString_view p Hp). now rewrite removed_count.
Qed.

(** X11.  Removing a path right after prepending or appending it removes
    the new element with the old ones: the count is one more than removing
    from the list as it was, and the list left is the same. *)
Theorem X11_remove_after_add (m : Morfeusz) (p : string) :
  fits p ->
  Z.of_nat (List.length (morfeusz.dictionarySearchPaths m)) + 1 < 2 ^ 31 ->
  RemoveFromDictionarySearchPaths (PrependToDictionarySearchPaths m p) p
  = (fst (RemoveFromDictionarySearchPaths m p) + 1,
     snd (RemoveFromDictionarySearchPaths m p))
  /\ RemoveFromDictionarySearchPaths (AppendToDictionarySearchPaths m p) p
     = (fst (RemoveFromDictionarySearchPaths m p) + 1,
        snd (RemoveFromDictionarySearchPaths m p)).
Proof.
  intros Hp Hlen.
  rewrite (Remove_unfolded m p Hp) by lia. cbn [fst snd].
  unfold PrependToDictionarySearchPaths, AppendToDictionarySearchPaths,
    C.prependToDictionarySearchPaths, C.appendToDictionarySearchPaths.
  rewrite (stdString_view p Hp). split.
  - rewrite Remove_unfolded; [| exact Hp |].
    + cbn [C.with_paths morfeusz.dictionarySearchPaths morfeusz.impl].
      rewrite list_remove_cons_same. cbn [count_occ].
      destruct (string_dec p p); [| congruence].
      f_equal. lia.
    + cbn [C.with_paths morfeusz.dictionarySearchPaths List.length]. lia.
  - rewrite Remove_unfolded; [| exact Hp |].
    + cbn [C.with_paths morfeusz.dictionarySearchPaths morfeusz.impl].
      rewrite list_remove_app_same, count_occ_app. cbn [count_occ].
      destruct (string_dec p p); [| congruence].
      f_equal. lia.
    + cbn [C.with_paths morfeusz.dictionarySearchPaths].
      rewrite length_app. cbn [List.length]. lia.
Qed.

(** X12.  Removing the same path a second time removes nothing: it
    returns 0 and leaves the list as the first removal left it. *)
Theorem X12_remove_twice (m : Morfeusz) (p : string) :
  fits p ->
  Z.of_nat (List.length (morfeusz.dictionarySearchPaths m)) < 2 ^ 31 ->
  RemoveFromDictionarySearchPaths
    (snd (RemoveFromDictionarySearchPaths m p)) p
  = (0, snd (RemoveFromDictionarySearchPaths m p)).
Proof.
  intros Hp Hlen. rewrite (Remove_unfolded m p Hp Hlen). cbn [snd].
  pose proof (list_remove_length p (morfeusz.dictionarySearchPaths m)) as Hc.
  rewrite Remove_unfolded; [| exact Hp |].
  - cbn [C.with_paths morfeusz.dictionarySearchPaths morfeusz.impl].
    rewrite list_remove_twice.
    rewrite (proj1 (count_occ_not_In string_dec _ _) (list_remove_gone p _)).
    reflexivity.
  - cbn [C.with_paths morfeusz.dictionarySearchPaths]. lia.
Qed.

(** X13.  Removal accounts for every element: the count returned and the
    length of the list left add up to the length before, and every other
    path occurs in the list as many times as before. *)
Theorem X13_remove_accounts_for_all (m : Morfeusz) (p : string) :
  fits p ->
  Z.of_nat (List.length (morfeusz.dictionarySearchPaths m)) < 2 ^ 31 ->
  fst (RemoveFromDictionarySearchPaths m p)
  + Z.of_nat (List.length (morfeusz.dictionarySearchPaths
                             (snd (RemoveFromDictionarySearchPaths m p))))
  = Z.of_nat (List.length (morfeusz.dictionarySearchPaths m))
  /\ forall q, q <> p ->
       count_occ string_dec
         (morfeusz.dictionarySearchPaths
            (snd (RemoveFromDictionarySearchPaths m p))) q
       = count_occ string_dec (morfeusz.dictionarySearchPaths m) q.
Proof.
  intros Hp Hlen. rewrite (Remove_unfolded m p Hp Hlen).
  cbn [fst snd C.with_paths morfeusz.dictionarySearchPaths]. split.
  - pose proof (list_remove_length p (morfeusz.dictionarySearchPaths m)). lia.
  - intros q Hq. now apply list_remove_other.
Qed.


End PathsCombined.

Lemma X11_remove_after_add_witness :
  fits "first_path"
  /\ Z.of_nat (List.length (morfeusz.dictionarySearchPaths Toy.both)) + 1
     < 2 ^ 31
  /\ RemoveFromDictionarySearchPaths (L := Toy.library)
       (PrependToDictionarySearchPaths (L := Toy.library) Toy.both
          "first_path") "first_path"
     = (fst (RemoveFromDictionarySearchPaths (L := Toy.library) Toy.both
               "first_path") + 1,
        snd (RemoveFromDictionarySearchPaths (L := Toy.library) Toy.both
               "first_path")).
Proof.
  assert (H1 : fits "first_path") by (unfold fits; simpl; lia).
  assert (H2 : Z.of_nat (List.length (morfeusz.dictionarySearchPaths Toy.both))
               + 1 < 2 ^ 31) by (simpl; lia).
  split; [exact H1 | split; [exact H2 |]].
  exact (proj1 (X11_remove_after_add (L := Toy.library) Toy.both "first_path"
                  H1 H2)).
Defined.

Lemma X12_remove_twice_witness :
  fits "/usr/share/morfeusz2/dictionaries"
  /\ Z.of_nat (List.length (morfeusz.dictionarySearchPaths Toy.both)) < 2 ^ 31
  /\ RemoveFromDictionarySearchPaths (L := Toy.library)
       (snd (RemoveFromDictionarySearchPaths (L := Toy.library) Toy.both
               "/usr/share/morfeusz2/dictionaries"))
       "/usr/share/morfeusz2/dictionaries"
     = (0, snd (RemoveFromDictionarySearchPaths (L := Toy.library) Toy.both
                  "/usr/share/morfeusz2/dictionaries")).
Proof.
  assert (H1 : fits "/usr/share/morfeusz2/dictionaries")
    by (unfold fits; simpl; lia).
  assert (H2 : Z.of_nat (List.length (morfeusz.dictionarySearchPaths Toy.both))
               < 2 ^ 31) by (simpl; lia).
  split; [exact H1 | split; [exact H2 |]].
  exact (X12_remove_twice (L := Toy.library) Toy.both
           "/usr/share/morfeusz2/dictionaries" H1 H2).
Defined.

Lemma X13_remove_accounts_for_all_witness :
  fits "xyz"
  /\ Z.of_nat (List.length (morfeusz.dictionarySearchPaths Toy.both)) < 2 ^ 31
  /\ fst (RemoveFromDictionarySearchPaths (L := Toy.library) Toy.both "xyz")
     + Z.of_nat (List.length
                   (morfeusz.dictionarySearchPaths
                      (snd (RemoveFromDictionarySearchPaths (L := Toy.library)
                              Toy.both "xyz"))))
     = Z.of_nat (List.length (morfeusz.dictionarySearchPaths Toy.both)).
Proof.
  assert (H1 : fits "xyz") by (unfold fits; simpl; lia).
  assert (H2 : Z.of_nat (List.length (morfeusz.dictionarySearchPaths Toy.both))
               < 2 ^ 31) by (simpl; lia).
  split; [exact H1 | split; [exact H2 |]].
  exact (proj1 (X13_remove_accounts_for_all (L := Toy.library) Toy.both "xyz"
                  H1 H2)).
Defined.

(** ** [New] and the charset *)

Section NewCharset.

Context {L : morfeusz.Library}.

(** X15.  [New] with a charset outside [UTF8 .. CP852], and no [Aggl] or
    [Praet] to set first, creates the native instance and then fails with
    the charset error, returning no instance. *)
Theorem X15_New_rejects_charset (c : Config.t) (m0 : C.Morf) :
  usage_in_range c ->
  loads c m0 ->
  Config.Aggl c = EmptyString ->
  Config.Praet c = EmptyString ->
  ~ UTF8 <= Config.Charset c <= CP852 ->
  New (Some c) = Defined (None, errInvalidCharset).
Proof.
  intros Hu Hl Ha Hp Hc. rewrite (New_runSteps c m0 Hu Hl).
  unfold configSteps. cbn [runSteps bind]. rewrite Ha, Hp.
  cbn [String.eqb orReturn]. now rewrite (SetCharset_validated m0 _ Hc).
Qed.

End NewCharset.

Lemma X15_New_rejects_charset_witness :
  New (L := Toy.library)
    (Some {| Config.DictName := EmptyString; Config.DictNameNil := true;
     Config.Aggl := EmptyString;
             Config.Praet := EmptyString; Config.Charset := 4;
             Config.TokenNumbering := 0; Config.CaseHandling := 0;
             Config.WhitespaceHandling := 0; Config.Usage := 0 |})
  = Defined (None, errInvalidCharset).
Proof.
  refine (X15_New_rejects_charset (L := Toy.library) _ Toy.both _ _ _ _ _).
  - split; discriminate.
  - reflexivity.
  - reflexivity.
  - reflexivity.
  - cbn. intros [_ H]. apply H. reflexivity.
Defined.

(** ** Strings and error texts *)

Lemma c_string_message (e : exception) : c_string (what e) -> message e = what e.
Proof.
  unfold c_string, message. intros H. rewrite H. apply substring_all.
Qed.

Section Texts.

Context {L : morfeusz.Library}.

(** X16.  The string getters return the library's string unchanged. *)
Theorem X16_string_getters (m : Morfeusz) :
  (fits (morfeusz.getAggl m) -> Aggl m = morfeusz.getAggl m)
  /\ (fits (morfeusz.getPraet m) -> Praet m = morfeusz.getPraet m)
  /\ (fits (morfeusz.getTagsetId m) -> TagsetID m = morfeusz.getTagsetId m)
  /\ (fits (morfeusz.getDictID m) -> DictID m = morfeusz.getDictID m)
  /\ (fits (morfeusz.getDictCopyright m) ->
      DictCopyright m = morfeusz.getDictCopyright m).
Proof.
  repeat apply conj; intros H; now apply goString_makeString.
Qed.

(** X17.  The text of the Go error is the exception's [what()]: for a
    setter that threw, and for a generation that threw. *)
Theorem X17_error_text_is_what (e : exception) (m' : C.Morf) :
  c_string (what e) ->
  has_message e ->
  asError (C.caught (Raised e m')) = (Some (what e), m')
  /\ fromTokenInfoArray (C.makeTokenInfoArray_exception e)
     = Returned (None, Some (what e)).
Proof.
  intros Hc Hm. rewrite (asError_raised e m' Hm).
  rewrite fromTokenInfoArray_exception, (newError_makeError e Hm).
  now rewrite (c_string_message e Hc).
Qed.

End Texts.

Lemma X16_string_getters_witness :
  fits (@morfeusz.getAggl Toy.library Toy.both)
  /\ Aggl (L := Toy.library) Toy.both = "strict".
Proof.
  assert (H : fits (@morfeusz.getAggl Toy.library Toy.both))
    by (unfold fits; simpl; lia).
  split; [exact H |].
  exact (proj1 (X16_string_getters (L := Toy.library) Toy.both) H).
Defined.

Lemma X17_error_text_is_what_witness :
  c_string "Generator is not available"
  /\ has_message {| what := "Generator is not available" |}
  /\ fromTokenInfoArray
       (C.makeTokenInfoArray_exception
          {| what := "Generator is not available" |})
     = Returned (None, Some "Generator is not available").
Proof.
  assert (Hc : c_string (what {| what := "Generator is not available" |}))
    by reflexivity.
  assert (Hm : has_message {| what := "Generator is not available" |})
    by (unfold has_message; simpl; lia).
  split; [exact Hc | split; [exact Hm |]].
  exact (proj2 (X17_error_text_is_what (L := Toy.library)
                  {| what := "Generator is not available" |} Toy.both Hc Hm)).
Defined.

(** ** Names and labels *)

Section Namespaces.

Context {L : morfeusz.Library}.

Variable m : Morfeusz.
Variables tags names labels : list string.
Hypothesis tags_contract :
  resolver_contract morfeusz.getTag morfeusz.getTagId morfeusz.getTagsCount
    m tags.
Hypothesis names_contract :
  resolver_contract morfeusz.getName morfeusz.getNameId
    morfeusz.getNamesCount m names.
Hypothesis labels_contract :
  resolver_contract morfeusz.getLabelsAsString morfeusz.getLabelsId
    morfeusz.getLabelsCount m labels.

(** X18.  Names and label sets round-trip as tags do: for a name of the
    dictionary, [Name(NameID(s)) = s], and for a label set,
    [LabelsAsString(LabelsID(s)) = s]. *)
Theorem X18_name_and_labels_round_trip (s : string) :
  (In s names -> Name m (NameID m s) = s)
  /\ (In s labels -> LabelsAsString m (LabelsID m s) = s).
Proof.
  split; intros Hin.
  - exact (resolve_resolveId _ _ _ m names names_contract s Hin).
  - exact (resolve_resolveId _ _ _ m labels labels_contract s Hin).
Qed.

(** X19.  An id that is a C int and lies outside a table resolves to the
    empty string, through [Tag], [Name] and [LabelsAsString] alike. *)
Theorem X19_invalid_int_id_resolves_to_empty (id : Z) :
  in_int id ->
  (~ 0 <= id < TagsCount m -> Tag m id = EmptyString)
  /\ (~ 0 <= id < NamesCount m -> Name m id = EmptyString)
  /\ (~ 0 <= id < LabelsCount m -> LabelsAsString m id = EmptyString).
Proof.
  intros Hint. repeat apply conj; intros Hout.
  - exact (resolve_invalid _ _ _ m tags tags_contract id Hint Hout).
  - exact (resolve_invalid _ _ _ m names names_contract id Hint Hout).
  - exact (resolve_invalid _ _ _ m labels labels_contract id Hint Hout).
Qed.

Lemma resolveId_range (byId : C.Morf -> Z -> Fallible string)
    (byString : C.Morf -> string -> Fallible Z) (count : C.Morf -> Z)
    (table : list string)
    (contract : resolver_contract byId byString count m table) (s : string) :
  fits s ->
  let id := go_int (match byString m (C.stdString (makeStructString s)) with
                    | Returns i => i
                    | Throws _ => C.invalidId
                    end) in
  (In s table -> 0 <= id < count m)
  /\ (~ In s table -> id = -1).
Proof.
  intros Hs. cbv zeta. split.
  - intros Hin. destruct (position_In _ _ Hin) as [k Hk].
    rewrite (resolveId_at _ _ _ m table contract s k Hk).
    destruct contract as (Hcount & _).
    assert ((k < List.length table)%nat).
    { apply nth_error_Some. rewrite (position_nth _ _ _ Hk). discriminate. }
    lia.
  - intros Hout. exact (resolveId_unknown _ _ _ m table contract s Hs Hout).
Qed.

(** X20.  [TagID], [NameID] and [LabelsID] return an id inside the table
    for a string of the dictionary, and -1 for any other string; so -1
    tells exactly the unknown strings. *)
Theorem X20_string_ids_in_range_or_minus_one (s : string) :
  fits s ->
  ((In s tags -> 0 <= TagID m s < TagsCount m)
   /\ (~ In s tags -> TagID m s = -1))
  /\ ((In s names -> 0 <= NameID m s < NamesCount m)
      /\ (~ In s names -> NameID m s = -1))
  /\ ((In s labels -> 0 <= LabelsID m s < LabelsCount m)
      /\ (~ In s labels -> LabelsID m s = -1)).
Proof.
  intros Hs. repeat apply conj.
  - exact (proj1 (resolveId_range _ _ _ tags tags_contract s Hs)).
  - exact (proj2 (resolveId_range _ _ _ tags tags_contract s Hs)).
  - exact (proj1 (resolveId_range _ _ _ names names_contract s Hs)).
  - exact (proj2 (resolveId_range _ _ _ names names_contract s Hs)).
  - exact (proj1 (resolveId_range _ _ _ labels labels_contract s Hs)).
  - exact (proj2 (resolveId_range _ _ _ labels labels_contract s Hs)).
Qed.

End Namespaces.

Lemma X18_name_and_labels_round_trip_witness :
  Name (L := Toy.library) Toy.both
    (NameID (L := Toy.library) Toy.both "nazwa_pospolita")
  = "nazwa_pospolita".
Proof.
  apply (proj1 (X18_name_and_labels_round_trip (L := Toy.library) Toy.both
                  Toy.names Toy.labelSets (Toy_names Toy.both)
                  (Toy_labels Toy.both) "nazwa_pospolita")).
  simpl. tauto.
Defined.

Lemma X19_invalid_int_id_resolves_to_empty_witness :
  in_int (-1)
  /\ ~ 0 <= -1 < TagsCount (L := Toy.library) Toy.both
  /\ Tag (L := Toy.library) Toy.both (-1) = EmptyString.
Proof.
  assert (Hint : in_int (-1)) by (unfold in_int, int_min, int_max; lia).
  assert (Hout : ~ 0 <= -1 < TagsCount (L := Toy.library) Toy.both) by lia.
  split; [exact Hint | split; [exact Hout |]].
  exact (proj1 (X19_invalid_int_id_resolves_to_empty (L := Toy.library)
                  Toy.both Toy.tags Toy.names Toy.labelSets
                  (Toy_tags Toy.both) (Toy_names Toy.both)
                  (Toy_labels Toy.both) (-1) Hint) Hout).
Defined.

Lemma X20_string_ids_in_range_or_minus_one_witness :
  fits "xyz"
  /\ ~ In "xyz" Toy.tags
  /\ TagID (L := Toy.library) Toy.both "xyz" = -1.
Proof.
  assert (Hs : fits "xyz") by (unfold fits; simpl; lia).
  assert (Hout : ~ In "xyz" Toy.tags).
  { simpl. intros [H | [H | [H | [H | [H | []]]]]]; discriminate. }
  split; [exact Hs | split; [exact Hout |]].
  exact (proj2 (proj1 (X20_string_ids_in_range_or_minus_one (L := Toy.library)
                         Toy.both Toy.tags Toy.names Toy.labelSets
                         (Toy_tags Toy.both) (Toy_names Toy.both)
                         (Toy_labels Toy.both) "xyz" Hs)) Hout).
Defined.

(** ** Table reads that stay inside *)

Lemma index_defined {T : Type} (table : list T) (i : Z) :
  0 <= i < Z.of_nat (List.length table) ->
  exists x, index table i = Defined x.
Proof.
  intros H. unfold index. destruct (Z.ltb_spec i 0); [lia |].
  destruct (nth_error table (Z.to_nat i)) as [x |] eqn:E.
  - now exists x.
  - apply nth_error_None in E. lia.
Qed.

Section Inside.

Context {L : morfeusz.Library}.

Lemma SetCaseHandling_in_range (m : Morfeusz) (v : Z) :
  0 <= v < 3 -> exists r, SetCaseHandling m v = Defined r.
Proof.
  intros H. destruct (index_defined C.translateCaseHandling v H) as [x Hx].
  unfold SetCaseHandling, C.setCaseHandling. rewrite Hx.
  eexists. reflexivity.
Qed.

Lemma SetTokenNumbering_in_range (m : Morfeusz) (v : Z) :
  0 <= v < 2 -> exists r, SetTokenNumbering m v = Defined r.
Proof.
  intros H. destruct (index_defined C.translateTokenNumbering v H) as [x Hx].
  unfold SetTokenNumbering, C.setTokenNumbering. rewrite Hx.
  eexists. reflexivity.
Qed.

Lemma SetWhitespaceHandling_in_range (m : Morfeusz) (v : Z) :
  0 <= v < 3 -> exists r, SetWhitespaceHandling m v = Defined r.
Proof.
  intros H.
  destruct (index_defined C.translateWhitespaceHandling v H) as [x Hx].
  unfold SetWhitespaceHandling, C.setWhitespaceHandling. rewrite Hx.
  eexists. reflexivity.
Qed.

Lemma SetCharset_defined (m : Morfeusz) (v : Z) :
  exists r, SetCharset m v = Defined r.
Proof.
  destruct (Z.lt_ge_cases v UTF8) as [Hlo | Hlo].
  - eexists. apply SetCharset_validated. lia.
  - destruct (Z.lt_ge_cases CP852 v) as [Hhi | Hhi].
    + eexists. apply SetCharset_validated. lia.
    + apply SetCharset_in_range. lia.
Qed.

(** X21.  [SetCharset] never reads outside the charset table, whatever
    ordinal it is given; the three other setters stay inside their tables
    exactly for the ordinals the package declares. *)
Theorem X21_setters_and_their_tables (m : Morfeusz) (v : Z) :
  (exists r, SetCharset m v = Defined r)
  /\ (SetCaseHandling m v = OutOfBounds
      <-> ~ ConditionallyCaseSensitive <= v <= IgnoreCase)
  /\ (SetTokenNumbering m v = OutOfBounds
      <-> ~ SeparateNumbering <= v <= ContinuousNumbering)
  /\ (SetWhitespaceHandling m v = OutOfBounds
      <-> ~ SkipWhitespaces <= v <= KeepWhitespaces).
Proof.
  unfold ConditionallyCaseSensitive, IgnoreCase, SeparateNumbering,
    ContinuousNumbering, SkipWhitespaces, KeepWhitespaces,
    C.CONDITIONALLY_CASE_SENSITIVE, C.IGNORE_CASE, C.SEPARATE_NUMBERING,
    C.CONTINUOUS_NUMBERING, C.SKIP_WHITESPACES, C.KEEP_WHITESPACES.
  repeat apply conj.
  - apply SetCharset_defined.
  - intros H Hin.
    destruct (SetCaseHandling_in_range m v) as [r Hr]; [lia | congruence].
  - intros H. apply SetCaseHandling_unchecked. lia.
  - intros H Hin.
    destruct (SetTokenNumbering_in_range m v) as [r Hr]; [lia | congruence].
  - intros H. apply SetTokenNumbering_unchecked. lia.
  - intros H Hin.
    destruct (SetWhitespaceHandling_in_range m v) as [r Hr];
      [lia | congruence].
  - intros H. apply SetWhitespaceHandling_unchecked. lia.
Qed.

Lemma orReturn_defined (r : error * Morfeusz)
    (rest : Morfeusz -> Behaviour (option Morfeusz * error)) :
  (forall ret, exists x, rest ret = Defined x) ->
  exists x, orReturn r rest = Defined x.
Proof.
  intros H. destruct r as [[err |] ret]; cbn [orReturn].
  - eexists. reflexivity.
  - apply H.
Qed.

(** X22.  With the case handling, token numbering and whitespace handling
    of the configuration among the declared ordinals, [New] reads no table
    outside its bounds: it returns an instance or an error, whatever the
    other fields are. *)
Theorem X22_New_stays_inside_tables (c : Config.t) :
  ConditionallyCaseSensitive <= Config.CaseHandling c <= IgnoreCase ->
  SeparateNumbering <= Config.TokenNumbering c <= ContinuousNumbering ->
  SkipWhitespaces <= Config.WhitespaceHandling c <= KeepWhitespaces ->
  exists r, New (Some c) = Defined r.
Proof.
  unfold ConditionallyCaseSensitive, IgnoreCase, SeparateNumbering,
    ContinuousNumbering, SkipWhitespaces, KeepWhitespaces,
    C.CONDITIONALLY_CASE_SENSITIVE, C.IGNORE_CASE, C.SEPARATE_NUMBERING,
    C.CONTINUOUS_NUMBERING, C.SKIP_WHITESPACES, C.KEEP_WHITESPACES.
  intros Hcase Hnum Hws.
  destruct (Z.lt_ge_cases (Config.Usage c) BothAnalyseAndGenerate) as [Hlo | Hlo].
  { eexists. apply New_usage_validated. unfold usage_in_range. lia. }
  destruct (Z.lt_ge_cases GenerateOnly (Config.Usage c)) as [Hhi | Hhi].
  { eexists. apply New_usage_validated. unfold usage_in_range. lia. }
  assert (Hu : usage_in_range c) by (unfold usage_in_range; lia).
  unfold New. rewrite (usage_check c Hu). unfold C.createInstance.
  destruct (index_defined C.translateUsage (Config.Usage c)) as [u Hidx].
  { unfold BothAnalyseAndGenerate, GenerateOnly, C.BOTH_ANALYSE_AND_GENERATE,
      C.GENERATE_ONLY in *. cbn. lia. }
  rewrite Hidx. cbn [bind].
  match goal with
  | |- exists r, match ?created with Some _ => _ | None => _ end = _ =>
      destruct created as [m0 |]
  end; [| eexists; reflexivity].
  apply orReturn_defined. intros ret1.
  apply orReturn_defined. intros ret2.
  destruct (SetCharset_defined ret2 (Config.Charset c)) as [r3 ->].
  cbn [bind]. apply orReturn_defined. intros ret3.
  destruct (SetCaseHandling_in_range ret3 (Config.CaseHandling c)) as [r4 ->];
    [lia |].
  cbn [bind]. apply orReturn_defined. intros ret4.
  destruct (SetTokenNumbering_in_range ret4 (Config.TokenNumbering c))
    as [r5 ->]; [lia |].
  cbn [bind]. apply orReturn_defined. intros ret5.
  destruct (SetWhitespaceHandling_in_range ret5 (Config.WhitespaceHandling c))
    as [r6 ->]; [lia |].
  cbn [bind]. apply orReturn_defined. intros ret6.
  eexists. reflexivity.
Qed.

End Inside.

Lemma X22_New_stays_inside_tables_witness :
  exists r, New (L := Toy.library) (Some Toy.badAggl) = Defined r.
Proof.
  refine (X22_New_stays_inside_tables (L := Toy.library) Toy.badAggl _ _ _);
    split; discriminate.
Defined.

(** ** The data pointer of an empty string *)

(** The characters the shim reads do not depend on it. *)
Lemma stdString_any_pointer (nilData : bool) (s : string) :
  C.stdString (makeStructStringAt nilData s)
  = C.stdString (makeStructString s).
Proof. destruct s; destruct nilData; reflexivity. Qed.

Section Overloads.

Context {L : morfeusz.Library}.

(** Which factory of the library [New] reaches: the one without a name
    for a [DictName] whose data pointer is nil, and the one with a name
    otherwise, also when the name is empty. *)
Lemma created_overload (c : Config.t) (u : morfeusz.MorfeuszUsage) :
  index C.translateUsage (Config.Usage c) = Defined u ->
  created c
  = Defined
      (match
         (if match Config.DictName c with
             | EmptyString => Config.DictNameNil c
             | _ => false
             end
          then morfeusz.createInstance None u
          else morfeusz.createInstance
                 (Some (C.stdString (makeStructString (Config.DictName c)))) u)
       with
       | Returns m => Some m
       | Throws _ => None
       end).
Proof.
  intros Hu. unfold created, C.createInstance. rewrite Hu. cbn [bind].
  rewrite <- (stdString_any_pointer (Config.DictNameNil c)).
  unfold makeStructStringAt at 1. cbn [C.p].
  destruct (Config.DictName c); [destruct (Config.DictNameNil c) |];
    reflexivity.
Qed.

End Overloads.
